(** * assets/site.js: the footer year and the active navigation link

    A shallow embedding of the two routines of [assets/site.js],
    [setYear] and [markActiveNav], and of the parts of the host
    environment they call: the string method [replace] with the regular
    expression [/\/index\.html$/], the document tree with
    [getElementById], [querySelectorAll], [getAttribute], [textContent]
    and [classList.add], and the clock behind [new Date().getFullYear()].

    Strings are sequences of character codes ([string]); the document is
    a finite tree whose elements are addressed by their position, which
    plays the part of the object reference a script holds; the script
    runs in a state-and-exception monad over that tree. *)

From Stdlib Require Import ZArith Ascii String DecimalString Lia.
From stdpp Require Import base tactics option list strings.

(** ** Regular expressions of the shape used by the script *)

Module RegExp.

(** A pattern is a sequence of atoms: a literal character (an escaped
    [\/] or [\.] is the literal character itself) or the assertion [$],
    which without the [m] flag holds at the end of the input only. *)
Inductive atom : Type :=
| Lit (c : ascii)
| EndOfInput.

Definition pattern : Type := list atom.

(** [match_at pat s]: the pattern matched against the input at the
    current position, [s] being the input from that position on. The
    result is the input that follows the match. *)
Fixpoint match_at (pat : pattern) (s : string) : option string :=
  match pat with
  | [] => Some s
  | Lit c :: pat' =>
      match s with
      | String c' s' => if Ascii.eqb c c' then match_at pat' s' else None
      | EmptyString => None
      end
  | EndOfInput :: pat' =>
      match s with
      | EmptyString => match_at pat' s
      | String _ _ => None
      end
  end.

(** [replace pat repl s] is [s.replace(pat, repl)] for a pattern without
    the [g] flag and a replacement without [$] sequences: the match
    positions are tried from the left, the first match is replaced, and a
    string without a match is returned as it is. *)
Fixpoint replace (pat : pattern) (repl : string) (s : string) : string :=
  match match_at pat s with
  | Some rest => repl +:+ rest
  | None =>
      match s with
      | EmptyString => EmptyString
      | String c s' => String c (replace pat repl s')
      end
  end.

(** The pattern [/\/index\.html$/]. *)
Definition index_html : pattern :=
  [Lit "/"; Lit "i"; Lit "n"; Lit "d"; Lit "e"; Lit "x"; Lit ".";
   Lit "h"; Lit "t"; Lit "m"; Lit "l"; EndOfInput]%char.

End RegExp.

(** The normalisation both sides of the comparison go through:
    [s.replace(/\/index\.html$/, '/')]. *)
Definition normalize (s : string) : string :=
  RegExp.replace RegExp.index_html "/" s.

(** ** The clock: [new Date().getFullYear()] *)

Module Date.

Local Open Scope Z_scope.

(** Time values are milliseconds since the epoch, in UTC. The day and
    year arithmetic is the one of the language definition. *)
Definition msPerDay : Z := 86400000.

Definition Day (t : Z) : Z := t / msPerDay.

Definition DayFromYear (y : Z) : Z :=
  365 * (y - 1970) + (y - 1969) / 4 - (y - 1901) / 100 + (y - 1601) / 400.

Definition TimeFromYear (y : Z) : Z := msPerDay * DayFromYear y.

(** [YearFromTime t] is the largest year [y] with [TimeFromYear y <= t]
    (proved below as [YearFromTime_bounds] and [YearFromTime_largest]).
    It is computed from an estimate with the mean length of a year,
    146097 days in 400 years, which is off by one year at most. *)
Definition YearFromTime (t : Z) : Z :=
  let y0 := 1970 + (400 * Day t) / 146097 in
  if TimeFromYear (y0 + 1) <=? t then y0 + 1
  else if TimeFromYear y0 <=? t then y0
  else y0 - 1.

(** What the script reads from the host: the time value of [new Date()]
    and the offset of local time from UTC in effect at that instant,
    both in milliseconds. *)
Record clock : Type := Clock { now : Z; LocalTZA : Z }.

Definition LocalTime (c : clock) : Z := now c + LocalTZA c.

Definition getFullYear (c : clock) : Z := YearFromTime (LocalTime c).

(** The conversion of an integral number to a string, as the assignment
    to [textContent] performs it: decimal digits, a minus sign for a
    negative number. *)
Definition ToString (n : Z) : string := NilZero.string_of_int (Z.to_int n).

(** A string of exactly four decimal digits. *)
Definition is_digit (c : ascii) : bool :=
  (48 <=? nat_of_ascii c)%nat && (nat_of_ascii c <=? 57)%nat.

Definition four_digits (s : string) : bool :=
  Nat.eqb (String.length s) 4 && forallb is_digit (list_ascii_of_string s).

End Date.

(** ** The document *)

Module Dom.

(** An element: its local name, its attributes other than [class], and
    the token set of its [class] attribute in the order [classList]
    lists it. *)
Record element : Type := Element {
  localName : string;
  attributes : list (string * string);
  classList : list string
}.

(** The nodes of the tree: text and elements with their children. The
    induction principle that reaches into the children is [node_ind']
    below. *)
#[local] Unset Elimination Schemes.
Inductive node : Type :=
| Text (data : string)
| Elem (e : element) (childNodes : list node).
#[local] Set Elimination Schemes.

Section NodeInduction.

Variable P : node → Prop.
Hypothesis P_Text : ∀ s, P (Text s).
Hypothesis P_Elem : ∀ e kids, Forall P kids → P (Elem e kids).

Fixpoint node_ind' (n : node) : P n :=
  match n with
  | Text s => P_Text s
  | Elem e kids =>
      P_Elem e kids
        ((fix all (ks : list node) : Forall P ks :=
            match ks with
            | [] => @List.Forall_nil _ P
            | k :: ks' => @List.Forall_cons _ P k ks' (node_ind' k) (all ks')
            end) kids)
  end.

End NodeInduction.

(** A reference to a node is its position below the root: the indices
    of the children to descend through. The tree shape is never changed
    while a reference obtained from it is in use, so a position names
    one node throughout, as an object reference does. *)
Definition ref : Type := list nat.

Fixpoint node_at (n : node) (r : ref) : option node :=
  match r with
  | [] => Some n
  | i :: r' =>
      match n with
      | Text _ => None
      | Elem _ kids => kids !! i ≫= λ k, node_at k r'
      end
  end.

Definition elem_at (n : node) (r : ref) : option element :=
  match node_at n r with
  | Some (Elem e _) => Some e
  | _ => None
  end.

(** In-place update of the node a reference leads to. *)
Fixpoint alter_at (f : node → node) (r : ref) (n : node) : node :=
  match r with
  | [] => f n
  | i :: r' =>
      match n with
      | Text _ => n
      | Elem e kids => Elem e (alter (alter_at f r') i kids)
      end
  end.

Definition on_element (f : element → element) (n : node) : node :=
  match n with
  | Text s => Text s
  | Elem e kids => Elem (f e) kids
  end.

Definition alter_elem (f : element → element) : ref → node → node :=
  alter_at (on_element f).

(** [getAttribute]: the value of the first attribute of that name. *)
Fixpoint assoc (name : string) (l : list (string * string)) : option string :=
  match l with
  | [] => None
  | (k, v) :: l' => if String.eqb k name then Some v else assoc name l'
  end.

Definition attr (name : string) (e : element) : option string :=
  assoc name (attributes e).

(** [textContent] read: the text of all text nodes below, in tree order. *)
Fixpoint textContent (n : node) : string :=
  match n with
  | Text s => s
  | Elem _ kids =>
      (fix concat_text (ks : list node) : string :=
         match ks with
         | [] => ""
         | k :: ks' => textContent k +:+ concat_text ks'
         end) kids
  end.

(** [textContent] written: the children are replaced by one text node,
    or by none when the string is empty. *)
Definition replace_all (s : string) (n : node) : node :=
  match n with
  | Text _ => Text s
  | Elem e _ => Elem e (if String.eqb s "" then [] else [Text s])
  end.

(** [getElementById]: the first element in tree order with that id. *)
Fixpoint find_id (x : string) (n : node) : option ref :=
  match n with
  | Text _ => None
  | Elem e kids =>
      if bool_decide (attr "id" e = Some x) then Some []
      else
        (fix find_in (i : nat) (ks : list node) : option ref :=
           match ks with
           | [] => None
           | k :: ks' =>
               match find_id x k with
               | Some r => Some (i :: r)
               | None => find_in (S i) ks'
               end
           end) 0 kids
  end.

(** The same search among a list of siblings, the first at index [i]
    (the inner loop of [find_id], named for the proofs). *)
Fixpoint find_in (x : string) (i : nat) (ks : list node) : option ref :=
  match ks with
  | [] => None
  | k :: ks' =>
      match find_id x k with
      | Some r => Some (i :: r)
      | None => find_in x (S i) ks'
      end
  end.

(** Selectors of the shape [.cls tag]: the elements named [tag] below an
    element that carries the class [cls]. *)
Inductive selector : Type :=
| Descendant (cls : string) (tag : string).

Definition has_class (c : string) (e : element) : bool :=
  bool_decide (c ∈ classList e).

(** The matches of [.cls tag] in tree order; [below] tells whether an
    ancestor of [n] carries the class. *)
Fixpoint select (cls tag : string) (below : bool) (n : node) : list ref :=
  match n with
  | Text _ => []
  | Elem e kids =>
      ((if below && String.eqb (localName e) tag then [[]] else []) ++
       (fix select_in (i : nat) (ks : list node) : list ref :=
          match ks with
          | [] => []
          | k :: ks' =>
              map (cons i) (select cls tag (below || has_class cls e) k)
                ++ select_in (S i) ks'
          end) 0 kids)%list
  end.

(** The matches among a list of siblings, the first at index [i] (the
    inner loop of [select], named for the proofs). *)
Fixpoint select_in (cls tag : string) (below : bool) (i : nat)
    (ks : list node) : list ref :=
  match ks with
  | [] => []
  | k :: ks' =>
      map (cons i) (select cls tag below k) ++ select_in cls tag below (S i) ks'
  end.

Definition matches (sel : selector) (n : node) : list ref :=
  match sel with
  | Descendant cls tag => select cls tag false n
  end.

(** [classList.add] on the token set: a token already there is not added
    again. *)
Definition add_token (tok : string) (e : element) : element :=
  {| localName := localName e;
     attributes := attributes e;
     classList :=
       if has_class tok e then classList e else classList e ++ [tok] |}.

(** The characters [classList.add] refuses inside a token. *)
Definition is_ascii_whitespace (c : ascii) : bool :=
  match nat_of_ascii c with
  | 9 | 10 | 12 | 13 | 32 => true
  | _ => false
  end.

Fixpoint has_whitespace (s : string) : bool :=
  match s with
  | EmptyString => false
  | String c s' => is_ascii_whitespace c || has_whitespace s'
  end.

End Dom.

(** ** The script monad: the document as state, exceptions as results *)

Module Js.

Import Dom.

Inductive exn : Type :=
| TypeError
| SyntaxError
| InvalidCharacterError.

Inductive result (A : Type) : Type :=
| Ok (a : A) (doc : node)
| Throw (e : exn).
Arguments Ok {A} a doc.
Arguments Throw {A} e.

Definition js (A : Type) : Type := node → result A.

Definition ret {A} (a : A) : js A := λ doc, Ok a doc.

Definition throw {A} (e : exn) : js A := λ _, Throw e.

Definition bind {A B} (m : js A) (k : A → js B) : js B :=
  λ doc,
    match m doc with
    | Ok a doc' => k a doc'
    | Throw e => Throw e
    end.

Declare Scope js_scope.
Delimit Scope js_scope with js.
Notation "'let*' x := m 'in' k" := (bind m (λ x, k))
  (at level 10, x name, m at level 100, k at level 200) : js_scope.
Open Scope js_scope.

(** *** The host operations the script calls *)

(** [document.getElementById(x)]: a reference or [null]. *)
Definition getElementById (x : string) : js (option ref) :=
  λ doc, Ok (find_id x doc) doc.

(** [target.textContent = s]. Assigning through [null] throws; so does,
    in this model, assigning through a reference that leads nowhere. *)
Definition set_textContent (target : option ref) (s : string) : js unit :=
  λ doc,
    match target with
    | None => Throw TypeError
    | Some r =>
        match node_at doc r with
        | Some _ => Ok () (alter_at (replace_all s) r doc)
        | None => Throw TypeError
        end
    end.

(** [document.querySelectorAll(sel)]: the static list of matches. *)
Definition querySelectorAll (sel : selector) : js (list ref) :=
  λ doc, Ok (matches sel doc) doc.

(** [a.getAttribute(name)]: the value or [null]. The method exists on
    elements only. *)
Definition getAttribute (a : ref) (name : string) : js (option string) :=
  λ doc,
    match elem_at doc a with
    | Some e => Ok (attr name e) doc
    | None => Throw TypeError
    end.

(** [a.classList.add(tok)]. *)
Definition classList_add (a : ref) (tok : string) : js unit :=
  λ doc,
    match elem_at doc a with
    | Some _ =>
        if String.eqb tok "" then Throw SyntaxError
        else if has_whitespace tok then Throw InvalidCharacterError
        else Ok () (alter_elem (add_token tok) a doc)
    | None => Throw TypeError
    end.

(** [this.replace(pat, repl)] on a value that is a string or [null]:
    the method call on [null] throws. *)
Definition String_replace (this : option string) (pat : RegExp.pattern)
    (repl : string) : js string :=
  match this with
  | Some s => ret (RegExp.replace pat repl s)
  | None => throw TypeError
  end.

(** [list.forEach(f)]. *)
Fixpoint forEach {A} (l : list A) (f : A → js unit) : js unit :=
  match l with
  | [] => ret ()
  | x :: l' => let* _ := f x in forEach l' f
  end.

(** Truthiness of the two kinds of values the script tests: an object
    reference or [null], and a string or [null]. *)
Definition truthy_object (v : option ref) : bool :=
  match v with Some _ => true | None => false end.

Definition truthy_string (v : option string) : bool :=
  match v with
  | Some s => negb (String.eqb s "")
  | None => false
  end.

End Js.

(** ** The script *)

Import Dom Js.

(** [function setYear()] *)
Definition setYear (clock : Date.clock) : js unit :=
  let* y := getElementById "y" in
  if truthy_object y
  then set_textContent y (Date.ToString (Date.getFullYear clock))
  else ret ().

(** The callback of [forEach] in [markActiveNav]. *)
Definition markActiveNav_each (here : string) (a : ref) : js unit :=
  let* href := getAttribute a "href" in
  if negb (truthy_string href) then ret ()
  else
    let* norm := String_replace href RegExp.index_html "/" in
    if bool_decide (norm = here) then classList_add a "active" else ret ().

(** [function markActiveNav()], the page's [location.pathname] given. *)
Definition markActiveNav (pathname : string) : js unit :=
  let* here := String_replace (Some pathname) RegExp.index_html "/" in
  let* anchors := querySelectorAll (Descendant "nav" "a") in
  forEach anchors (markActiveNav_each here).

(** The two calls at the end of the script. *)
Definition main (clock : Date.clock) (pathname : string) : js unit :=
  let* _ := setYear clock in
  markActiveNav pathname.

(** ** The vocabulary of the properties *)

(** The navigation anchors: what [querySelectorAll('.nav a')] lists. *)
Definition nav_anchors (doc : node) : list ref :=
  matches (Descendant "nav" "a") doc.

(** [r] leads below an element that carries the class [cls]. *)
Definition below_class (cls : string) (n : node) (r : ref) : Prop :=
  ∃ r0 r1 e0, r = r0 ++ r1 ∧ r1 ≠ [] ∧ elem_at n r0 = Some e0 ∧ cls ∈ classList e0.

(** What the selector [.cls tag] describes: an element named [tag]
    below an element that carries the class [cls]. *)
Definition selected (cls tag : string) (n : node) (r : ref) : Prop :=
  ∃ e, elem_at n r = Some e ∧ localName e = tag ∧ below_class cls n r.

(** The element at [a] carries the active flag. *)
Definition flagged (doc : node) (a : ref) : Prop :=
  ∃ e, elem_at doc a = Some e ∧ "active" ∈ classList e.

(** The test the callback of [markActiveNav] makes on an anchor. *)
Definition marks (here : string) (e : element) : bool :=
  match attr "href" e with
  | Some h => negb (String.eqb h "") && bool_decide (normalize h = here)
  | None => false
  end.

(** The effect of the callback on the anchor it is called with. *)
Definition mark (here : string) (e : element) : element :=
  if marks here e then add_token "active" e else e.

(** The effect of the loop over the list [l] of anchors. *)
Definition mark_all (here : string) (l : list ref) (doc : node) : node :=
  foldl (λ d a, alter_elem (mark here) a d) doc l.

(** [w] is a suffix of [s]. *)
Fixpoint ends_with (w s : string) : bool :=
  String.eqb w s ||
  match s with
  | EmptyString => false
  | String _ s' => ends_with w s'
  end.

(** The unrestricted reading of the matching rule: every anchor that
    has an [href] attribute, the empty one included, is flagged when
    the normalised strings are equal and untouched when they differ. *)
Definition flags_every_equal_target : Prop :=
  ∀ (pathname : string) (doc : node) (a : ref) (e : element) (h : string),
    a ∈ nav_anchors doc → elem_at doc a = Some e → attr "href" e = Some h →
    ∃ doc', markActiveNav pathname doc = Ok () doc' ∧
      (normalize h = normalize pathname → flagged doc' a) ∧
      (normalize h ≠ normalize pathname → elem_at doc' a = Some e).

(** The unrestricted reading of the year rule: at every instant the
    text written is the year and has four digits. *)
Definition stamps_four_digits_always : Prop :=
  ∀ (clock : Date.clock) (doc : node) (r : ref) (e : element),
    elem_at doc r = Some e → attr "id" e = Some "y" →
    ∃ doc' y, setYear clock doc = Ok () doc' ∧ find_id "y" doc = Some y ∧
      textContent <$> node_at doc' y
        = Some (Date.ToString (Date.getFullYear clock)) ∧
      Date.four_digits (Date.ToString (Date.getFullYear clock)) = true.

(** ** The vocabulary of the further properties *)

(** [q] leads strictly below [y]. *)
Definition strictly_below (y q : ref) : Prop :=
  ∃ r, r ≠ [] ∧ q = y ++ r.

Fixpoint strictly_below_b (y q : ref) : bool :=
  match y, q with
  | [], [] => false
  | [], _ :: _ => true
  | _ :: _, [] => false
  | i :: y', j :: q' => Nat.eqb i j && strictly_below_b y' q'
  end.

(** [r] comes before [q] in document order: an element before what it
    contains, a subtree before the subtrees of later siblings. *)
Fixpoint doc_before (r q : ref) : bool :=
  match r, q with
  | [], [] => false
  | [], _ :: _ => true
  | _ :: _, [] => false
  | i :: r', j :: q' => (i <? j) || (Nat.eqb i j && doc_before r' q')
  end.

(** What a node is by itself, its children apart. *)
Definition label (n : node) : element + string :=
  match n with
  | Text s => inr s
  | Elem e _ => inl e
  end.

Definition label_at (n : node) (q : ref) : option (element + string) :=
  label <$> node_at n q.

Definition map_label (f : element → element) (l : element + string)
    : element + string :=
  match l with
  | inl e => inl (f e)
  | inr s => inr s
  end.

(** The children [textContent = s] leaves an element with. *)
Definition text_children (s : string) : list node :=
  if String.eqb s "" then [] else [Text s].

(** The text of all nodes in a list of siblings (the inner loop of
    [textContent], named for the proofs). *)
Fixpoint concat_text (ks : list node) : string :=
  match ks with
  | [] => ""
  | k :: ks' => textContent k +:+ concat_text ks'
  end.

(** The effect of [setYear] on the document. *)
Definition stamp (clock : Date.clock) (doc : node) : node :=
  match find_id "y" doc with
  | Some y =>
      alter_at (replace_all (Date.ToString (Date.getFullYear clock))) y doc
  | None => doc
  end.

(** The anchor at [q] is one the callback of [markActiveNav] flags at
    the path [pathname]: a navigation anchor with a non-empty target
    whose normal form is that of the path. *)
Definition target_matches (pathname : string) (doc : node) (q : ref) : Prop :=
  q ∈ nav_anchors doc ∧
  ∃ e h, elem_at doc q = Some e ∧ attr "href" e = Some h ∧ h ≠ "" ∧
         normalize h = normalize pathname.

(** [q] is not inside the element the year is written to. *)
Definition outside_year (doc : node) (q : ref) : Prop :=
  ∀ y, find_id "y" doc = Some y → ¬ strictly_below y q.

(** ** A sample page *)

Module Sample.

Definition a (href : option string) (cls : list string) (label : string) : node :=
  Elem (Element "a"
          (match href with Some h => [("href", h)] | None => [] end) cls)
       [Text label].

(** A header with navigation links (one without [href], one with an
    empty [href], one flagged from before), a link outside the
    navigation, and a footer with the year placeholder. *)
Definition page : node :=
  Elem (Element "body" [] [])
    [ Elem (Element "header" [] ["nav"])
        [ a (Some "/") [] "Home";
          a (Some "/blog/") ["btn"] "Blog";
          a None [] "Menu";
          a (Some "") [] "Top";
          a (Some "/about/index.html") [] "About";
          a (Some "/old/") ["active"] "Old" ];
      a (Some "/blog/") [] "elsewhere";
      Elem (Element "footer" [] [])
        [ Text "(c) "; Elem (Element "span" [("id", "y")] []) [] ] ].

(** The same page without the placeholder. *)
Definition page_without_year : node :=
  Elem (Element "body" [] [])
    [ Elem (Element "header" [] ["nav"]) [ a (Some "/") [] "Home" ];
      Elem (Element "footer" [] []) [ Text "(c) " ] ].

(** A navigation whose only link has an empty [href]. *)
Definition page_empty_href : node :=
  Elem (Element "ul" [] ["nav"]) [ a (Some "") [] "Top" ].

(** A page that is the placeholder alone. *)
Definition page_year_only : node :=
  Elem (Element "span" [("id", "y")] []) [].

(** A footer inside a navigation whose year element holds an old year
    and a link. *)
Definition page_nested_year : node :=
  Elem (Element "footer" [] ["nav"])
    [ Elem (Element "p" [("id", "y")] ["year"])
        [ Text "2019 "; a (Some "/") [] "Home" ];
      a (Some "/") [] "Home" ].

(** A page on which two elements have the id [y]. *)
Definition page_two_years : node :=
  Elem (Element "body" [] [])
    [ Elem (Element "span" [("id", "y")] []) [];
      Elem (Element "span" [("id", "y")] []) [ Text "2019" ] ].

(** 2 November 2026, 12:00 UTC, local time one hour ahead. *)
Definition noon_2026 : Date.clock := Date.Clock 1793620800000 3600000.

(** 1 January 10000, 00:00 UTC, local time UTC. *)
Definition year_10000 : Date.clock := Date.Clock 253402300800000 0.

End Sample.

(** ** The definitions at work *)

Example normalize_blog : normalize "/blog/index.html" = "/blog/".
Proof. reflexivity. Qed.

Example normalize_root : normalize "/index.html" = "/".
Proof. reflexivity. Qed.

Example normalize_twice_suffix :
  normalize "/index.html/index.html" = "/index.html/".
Proof. reflexivity. Qed.

Example year_2026 :
  Date.ToString (Date.getFullYear Sample.noon_2026) = "2026".
Proof. reflexivity. Qed.

Example year_local_new_year :
  Date.getFullYear (Date.Clock 1798761599999 0) = 2026%Z ∧
  Date.getFullYear (Date.Clock 1798761599999 3600000) = 2027%Z ∧
  Date.getFullYear (Date.Clock 0 (-1)) = 1969%Z ∧
  Date.ToString (-1)%Z = "-1" ∧ Date.ToString 0%Z = "0".
Proof. repeat split; reflexivity. Qed.

Example sample_anchors :
  nav_anchors Sample.page = [[0; 0]; [0; 1]; [0; 2]; [0; 3]; [0; 4]; [0; 5]].
Proof. reflexivity. Qed.

Example sample_year :
  ∃ doc, setYear Sample.noon_2026 Sample.page = Ok () doc ∧
         textContent doc = "HomeBlogMenuTopAboutOldelsewhere(c) 2026".
Proof. eexists. split; reflexivity. Qed.

Example sample_mark :
  ∃ doc, markActiveNav "/blog/index.html" Sample.page = Ok () doc ∧
         classList <$> elem_at doc [0; 1] = Some ["btn"; "active"] ∧
         classList <$> elem_at doc [0; 0] = Some [] ∧
         classList <$> elem_at doc [0; 5] = Some ["active"] ∧
         classList <$> elem_at doc [1] = Some [].
Proof. eexists. repeat split; reflexivity. Qed.

(** Without the guard on [href] the callback would throw on an anchor
    that has none. *)
Example replace_on_null :
  String_replace None RegExp.index_html "/" Sample.page = Throw TypeError.
Proof. reflexivity. Qed.

(** An empty [href] on a page whose path is empty: nothing is flagged. *)
Example empty_href_at_empty_path :
  normalize "" = "" ∧
  markActiveNav "" Sample.page_empty_href = Ok () Sample.page_empty_href.
Proof. split; reflexivity. Qed.

(** The year 10000 is written with five digits. *)
Example year_10000_text :
  ∃ doc, setYear Sample.year_10000 Sample.page_year_only = Ok () doc ∧
         textContent doc = "10000" ∧ Date.four_digits "10000" = false.
Proof. eexists. repeat split; reflexivity. Qed.

Example main_sample :
  ∃ doc, main Sample.noon_2026 "/about/" Sample.page = Ok () doc ∧
         classList <$> elem_at doc [0; 4] = Some ["active"] ∧
         textContent <$> node_at doc [2; 1] = Some "2026".
Proof. eexists. repeat split; reflexivity. Qed.

(** * Properties *)

(** Decidable facts about concrete pages are settled by evaluation. *)
Ltac by_evaluation :=
  refine (bool_decide_unpack _ _); vm_compute; exact I.

(** ** Normalisation *)

Section Normalize.

#[local] Arguments String.append !_ _ / : simpl nomatch.

Import RegExp.

(** A word followed by [$] matches exactly that word as the whole rest of the input. *)
Lemma match_at_word_end (w s : string) :
  match_at (map Lit (list_ascii_of_string w) ++ [EndOfInput])%list s
  = if String.eqb w s then Some "" else None.
Proof.
  revert s. induction w as [|c w IH]; intros s; simpl.
  - by destruct s.
  - destruct s as [|c' s]; [done|].
    destruct (Ascii.eqb_spec c c') as [->|Hne]; [apply IH | done].
Qed.

Lemma match_at_index_html (s : string) :
  match_at index_html s = if String.eqb "/index.html" s then Some "" else None.
Proof. exact (match_at_word_end "/index.html" s). Qed.

Lemma replace_index_html_unfold (s : string) :
  normalize s =
  if String.eqb "/index.html" s then "/"
  else match s with
       | EmptyString => EmptyString
       | String c s' => String c (normalize s')
       end.
Proof.
  unfold normalize. destruct s as [|c s]; [done|].
  cbn [replace]. rewrite match_at_index_html.
  by destruct (String.eqb _ _).
Qed.

Lemma length_append (q s : string) :
  String.length (q +:+ s) = String.length q + String.length s.
Proof. induction q as [|c q IH]; simpl; [done | by rewrite IH]. Qed.

Lemma append_snoc_inj (q q' : string) (c c' : ascii) :
  q +:+ String c "" = q' +:+ String c' "" → c = c'.
Proof.
  revert q'. induction q as [|a q IH]; intros [|a' q']; simpl; intros H.
  - congruence.
  - injection H as _ H. by destruct q'.
  - injection H as _ H. by destruct q.
  - injection H as _ H. eauto.
Qed.

Lemma slash_not_index_html (q q' : string) :
  q +:+ "/" ≠ q' +:+ "/index.html".
Proof.
  intros H.
  assert (q' +:+ "/index.html" = (q' +:+ "/index.htm") +:+ "l") as E.
  { clear H. induction q' as [|a q' IH]; simpl; [done | by rewrite IH]. }
  rewrite E in H. apply append_snoc_inj in H. discriminate.
Qed.

Lemma normalize_suffix (q : string) :
  normalize (q +:+ "/index.html") = q +:+ "/".
Proof.
  induction q as [|c q IH]; [done|].
  rewrite replace_index_html_unfold.
  destruct (String.eqb_spec "/index.html" (String c q +:+ "/index.html")) as [E|_].
  - apply (f_equal String.length) in E. simpl in E.
    rewrite length_append in E. simpl in E. lia.
  - simpl. by rewrite IH.
Qed.

Lemma normalize_other (s : string) :
  (∀ q, s ≠ q +:+ "/index.html") → normalize s = s.
Proof.
  induction s as [|c s IH]; intros Hs; [done|].
  rewrite replace_index_html_unfold.
  destruct (String.eqb_spec "/index.html" (String c s)) as [E|_].
  - by destruct (Hs "").
  - f_equal. apply IH. intros q ->. by apply (Hs (String c q)).
Qed.

Lemma normalize_cases (s : string) :
  (∃ q, s = q +:+ "/index.html" ∧ normalize s = q +:+ "/")
  ∨ ((∀ q, s ≠ q +:+ "/index.html") ∧ normalize s = s).
Proof.
  induction s as [|c s IH].
  - right. split; [by intros [|]|done].
  - destruct IH as [(q & -> & _)|[Hs _]].
    + left. exists (String c q). split; [done|]. apply (normalize_suffix (String c q)).
    + destruct (String.eqb_spec "/index.html" (String c s)) as [E|Hne].
      * left. exists "". split; [done|]. by rewrite <- E.
      * right. assert (∀ q, String c s ≠ q +:+ "/index.html") as H.
        { intros [|a q] E; simpl in E; [done|]. injection E as _ E. by apply (Hs q). }
        split; [done|]. by apply normalize_other.
Qed.

Lemma normalize_idem s : normalize (normalize s) = normalize s.
Proof.
  destruct (normalize_cases s) as [(q & -> & ->)|[_ E]]; [|by rewrite !E].
  apply normalize_other. intros q'. apply slash_not_index_html.
Qed.

Lemma ends_with_false (w s : string) :
  ends_with w s = false → ∀ q, s ≠ q +:+ w.
Proof.
  induction s as [|c s IH]; simpl; intros H q E.
  - destruct q; simpl in E; [subst w | done]. by rewrite String.eqb_refl in H.
  - apply orb_false_elim in H as [Hw Hs]. destruct q as [|c' q]; simpl in E.
    + subst w. by rewrite String.eqb_refl in Hw.
    + injection E as _ E. by apply (IH Hs q).
Qed.

End Normalize.

(** ** The calendar year *)

Section DateFacts.

Import Date.
Local Open Scope Z_scope.

Lemma DayFromYear_succ (y : Z) :
  365 <= DayFromYear (y + 1) - DayFromYear y <= 366.
Proof. unfold DayFromYear. Z.div_mod_to_equations. lia. Qed.

Lemma DayFromYear_mono (y1 y2 : Z) :
  y1 <= y2 → DayFromYear y1 <= DayFromYear y2.
Proof.
  intros H. replace y2 with (y1 + Z.of_nat (Z.to_nat (y2 - y1))) by lia.
  induction (Z.to_nat (y2 - y1)) as [|n IH].
  - replace (y1 + Z.of_nat 0) with y1 by lia. lia.
  - pose proof (DayFromYear_succ (y1 + Z.of_nat n)).
    replace (y1 + Z.of_nat (S n)) with (y1 + Z.of_nat n + 1) by lia. lia.
Qed.

Lemma TimeFromYear_mono (y1 y2 : Z) :
  y1 <= y2 → TimeFromYear y1 <= TimeFromYear y2.
Proof. intros H%DayFromYear_mono. unfold TimeFromYear, msPerDay. lia. Qed.

Lemma year_estimate (t : Z) :
  let y0 := 1970 + (400 * Day t) / 146097 in
  TimeFromYear (y0 - 1) <= t < TimeFromYear (y0 + 2).
Proof.
  unfold TimeFromYear, DayFromYear, Day, msPerDay. cbv zeta.
  Z.div_mod_to_equations. lia.
Qed.

Lemma YearFromTime_bounds (t : Z) :
  TimeFromYear (YearFromTime t) <= t < TimeFromYear (YearFromTime t + 1).
Proof.
  pose proof (year_estimate t) as H. cbv zeta in H.
  unfold YearFromTime. cbv zeta.
  set (y0 := 1970 + 400 * Day t / 146097) in *.
  destruct (Z.leb_spec (TimeFromYear (y0 + 1)) t).
  - replace (y0 + 1 + 1) with (y0 + 2) by lia. lia.
  - destruct (Z.leb_spec (TimeFromYear y0) t).
    + lia.
    + replace (y0 - 1 + 1) with y0 by lia. lia.
Qed.

Lemma YearFromTime_largest (t y : Z) :
  TimeFromYear y <= t → y <= YearFromTime t.
Proof.
  intros H. destruct (Z.le_gt_cases y (YearFromTime t)) as [|Hgt]; [done|].
  pose proof (YearFromTime_bounds t) as [_ Hlt].
  pose proof (TimeFromYear_mono (YearFromTime t + 1) y). lia.
Qed.

(** The years 1000 to 9999 are written with four digits (checked year by year). *)
Lemma ToString_four_digits (y : Z) :
  1000 <= y <= 9999 → four_digits (ToString y) = true.
Proof.
  intros H.
  assert (forallb (λ n, four_digits (ToString (1000 + Z.of_nat n)))
            (seq 0 (Z.to_nat 9000)) = true) as Hall by (vm_compute; reflexivity).
  rewrite forallb_forall in Hall.
  specialize (Hall (Z.to_nat (y - 1000))).
  rewrite Z2Nat.id in Hall by lia.
  replace (1000 + (y - 1000)) with y in Hall by lia.
  apply Hall, in_seq. lia.
Qed.

End DateFacts.

(** ** References into the document *)

Section References.

Implicit Types (n : node) (r q : ref) (e : element) (f g : element → element).

Lemma elem_at_Text s r : elem_at (Text s) r = None.
Proof. by destruct r. Qed.

Lemma elem_at_nil e kids : elem_at (Elem e kids) [] = Some e.
Proof. done. Qed.

Lemma elem_at_cons e kids i r :
  elem_at (Elem e kids) (i :: r) = kids !! i ≫= λ k, elem_at k r.
Proof. unfold elem_at. simpl. by destruct (kids !! i). Qed.

Lemma alter_elem_nil f n : alter_elem f [] n = on_element f n.
Proof. done. Qed.

Lemma alter_elem_cons f i r e kids :
  alter_elem f (i :: r) (Elem e kids) = Elem e (alter (alter_elem f r) i kids).
Proof. done. Qed.

Lemma alter_elem_Text f r s : alter_elem f r (Text s) = Text s.
Proof. by destruct r. Qed.

(** Reading after an update: the element at the updated reference is
    the updated one, every other element is as it was. *)
Lemma elem_at_alter_elem f r q n :
  elem_at (alter_elem f r n) q
  = if decide (r = q) then f <$> elem_at n q else elem_at n q.
Proof.
  revert q n. induction r as [|i r IH]; intros q n.
  - rewrite alter_elem_nil. destruct n as [s|e kids]; simpl.
    + rewrite !elem_at_Text. by case_decide.
    + destruct q as [|j q]; [done|]. by rewrite !elem_at_cons.
  - destruct n as [s|e kids].
    + rewrite alter_elem_Text, !elem_at_Text. by case_decide.
    + rewrite alter_elem_cons. destruct q as [|j q]; [done|].
      rewrite !elem_at_cons. destruct (decide (i = j)) as [->|Hij].
      * rewrite list_lookup_alter_eq. destruct (kids !! j) as [k|]; simpl.
        -- rewrite IH. repeat case_decide; congruence.
        -- by case_decide.
      * rewrite list_lookup_alter_ne by done. case_decide; congruence.
Qed.

Lemma elem_at_alter_elem_is_Some f r q n :
  is_Some (elem_at n q) → is_Some (elem_at (alter_elem f r n) q).
Proof.
  intros [e He]. rewrite elem_at_alter_elem, He. case_decide; eauto.
Qed.

(** Two updates that agree on the element found there are the same update. *)
Lemma alter_elem_ext f g r n :
  (∀ e, elem_at n r = Some e → f e = g e) →
  alter_elem f r n = alter_elem g r n.
Proof.
  revert n. induction r as [|i r IH]; intros n Hfg.
  - destruct n as [s|e kids]; [done|]. rewrite !alter_elem_nil. simpl.
    by rewrite (Hfg e).
  - destruct n as [s|e kids]; [done|]. rewrite !alter_elem_cons. f_equal.
    apply list_eq. intros j. destruct (decide (i = j)) as [->|Hij].
    + rewrite !list_lookup_alter_eq.
      destruct (kids !! j) as [k|] eqn:Hk; [|done]. simpl. f_equal.
      apply IH. intros e' He'. apply Hfg. by rewrite elem_at_cons, Hk.
    + by rewrite !list_lookup_alter_ne.
Qed.

Lemma alter_elem_id_fun r n : alter_elem id r n = n.
Proof.
  revert n. induction r as [|i r IH]; intros [s|e kids]; try done.
  rewrite alter_elem_cons. f_equal. apply list_alter_id. done.
Qed.

(** An update that leaves the element as it is leaves the document as it is. *)
Lemma alter_elem_id f r n :
  (∀ e, elem_at n r = Some e → f e = e) → alter_elem f r n = n.
Proof.
  intros Hf. rewrite (alter_elem_ext f id) by done. apply alter_elem_id_fun.
Qed.

End References.

(** ** Selection *)

Section Selection.

Implicit Types (n : node) (r q : ref) (e : element) (f g : element → element).

Lemma select_Elem cls tag below e kids :
  select cls tag below (Elem e kids)
  = (if below && String.eqb (localName e) tag then [[]] else [])
      ++ select_in cls tag (below || has_class cls e) 0 kids.
Proof.
  simpl. f_equal. generalize 0.
  induction kids as [|k kids IH]; intros i; simpl; [done|]. by rewrite IH.
Qed.

Lemma elem_of_select_in cls tag below i ks r :
  r ∈ select_in cls tag below i ks ↔
  ∃ j k r', r = (i + j) :: r' ∧ ks !! j = Some k ∧ r' ∈ select cls tag below k.
Proof.
  revert i. induction ks as [|k ks IH]; intros i; simpl.
  - split; [by intros ?%elem_of_nil | by intros (j & k & r' & _ & ? & _)].
  - rewrite elem_of_app, list_elem_of_fmap, IH. split.
    + intros [(r' & -> & Hr')|(j & k' & r' & -> & Hj & Hr')].
      * exists 0, k, r'. by rewrite Nat.add_0_r.
      * exists (S j), k', r'. split_and!; [f_equal; lia | done | done].
    + intros ([|j] & k' & r' & -> & Hj & Hr'); simpl in Hj.
      * left. exists r'. injection Hj as <-. by rewrite Nat.add_0_r.
      * right. exists j, k', r'. split_and!; [f_equal; lia | done | done].
Qed.

(** Every match is an element of the tree, and is named as the selector says. *)
Lemma select_elem cls tag below n r :
  r ∈ select cls tag below n →
  ∃ e, elem_at n r = Some e ∧ localName e = tag.
Proof.
  revert below r. induction n as [s|e kids IH] using node_ind'; intros below r.
  - by intros ?%elem_of_nil.
  - rewrite select_Elem, elem_of_app, elem_of_select_in.
    intros [Hr|(j & k & r' & -> & Hj & Hr')].
    + destruct (below && String.eqb (localName e) tag) eqn:E;
        [|by apply elem_of_nil in Hr].
      apply list_elem_of_singleton in Hr as ->. exists e. split; [done|].
      apply andb_prop in E as [_ E]. by apply String.eqb_eq.
    + rewrite Forall_lookup in IH. destruct (IH j k Hj _ _ Hr') as (e' & He' & Htag).
      exists e'. split; [|done]. rewrite elem_at_cons. change (0 + j) with j.
      by rewrite Hj.
Qed.

Lemma matches_elem sel n r :
  r ∈ matches sel n → is_Some (elem_at n r).
Proof. destruct sel as [cls tag]. intros (e & -> & _)%select_elem. eauto. Qed.

(** An update that keeps the name of the element and its membership in
    the class does not change what the selector matches. *)
Lemma select_in_alter cls tag below (h : node → node) i j ks :
  (∀ k, ks !! i = Some k → select cls tag below (h k) = select cls tag below k) →
  select_in cls tag below j (alter h i ks) = select_in cls tag below j ks.
Proof.
  revert i j. induction ks as [|k ks IH]; intros i j Hh; [done|].
  destruct i as [|i]; simpl.
  - by rewrite Hh.
  - f_equal. apply IH. intros k' Hk'. by apply Hh.
Qed.

Lemma select_alter_elem cls tag f r below n :
  (∀ e, localName (f e) = localName e) →
  (∀ e, has_class cls (f e) = has_class cls e) →
  select cls tag below (alter_elem f r n) = select cls tag below n.
Proof.
  intros Hname Hcls. revert below n.
  induction r as [|i r IH]; intros below [s|e kids]; try done.
  - rewrite alter_elem_nil. simpl on_element.
    by rewrite !select_Elem, Hname, Hcls.
  - rewrite alter_elem_cons, !select_Elem. f_equal.
    apply select_in_alter. intros k _. apply IH.
Qed.

Lemma below_class_child cls e kids j k r :
  kids !! j = Some k →
  below_class cls (Elem e kids) (j :: r)
  ↔ cls ∈ classList e ∨ below_class cls k r.
Proof.
  intros Hj. split.
  - intros (r0 & r1 & e0 & Hr & Hr1 & He0 & Hcls). destruct r0 as [|j0 r0].
    + left. rewrite elem_at_nil in He0. congruence.
    + right. simpl in Hr. injection Hr as <- ->.
      rewrite elem_at_cons, Hj in He0. by exists r0, r1, e0.
  - intros [Hcls|(r0 & r1 & e0 & -> & Hr1 & He0 & Hcls)].
    + by exists [], (j :: r), e.
    + exists (j :: r0), r1, e0. split_and!; [done..| |done].
      by rewrite elem_at_cons, Hj.
Qed.

Lemma select_spec cls tag below n r :
  r ∈ select cls tag below n ↔
  ∃ e, elem_at n r = Some e ∧ localName e = tag ∧
       (below = true ∨ below_class cls n r).
Proof.
  revert below r. induction n as [s|e kids IH] using node_ind'; intros below r.
  - rewrite elem_at_Text. split; [by intros ?%elem_of_nil | by intros (? & ? & _)].
  - rewrite Forall_lookup in IH.
    rewrite select_Elem, elem_of_app, elem_of_select_in. split.
    + intros [Hr|(j & k & r' & -> & Hj & Hr')].
      * destruct (below && String.eqb (localName e) tag) eqn:E;
          [|by apply elem_of_nil in Hr].
        apply list_elem_of_singleton in Hr as ->.
        apply andb_prop in E as [-> E%String.eqb_eq]. exists e. eauto.
      * change (0 + j) with j.
        apply (IH j k Hj) in Hr' as (e' & He' & Htag & Hbelow).
        exists e'. rewrite elem_at_cons, Hj. split_and!; [done..|].
        rewrite (below_class_child _ _ _ _ k) by done.
        destruct Hbelow as [[->|Hc%bool_decide_eq_true]%orb_prop|Hb]; eauto.
    + intros (e' & He' & Htag & Hbelow). destruct r as [|j r].
      * left. rewrite elem_at_nil in He'. injection He' as <-.
        destruct Hbelow as [->|(r0 & r1 & ? & Hr & Hr1 & _)].
        -- simpl. rewrite (proj2 (String.eqb_eq _ _) Htag).
           by apply list_elem_of_singleton.
        -- by destruct r0, r1.
      * right. rewrite elem_at_cons in He'.
        destruct (kids !! j) as [k|] eqn:Hj; [|done]. simpl in He'.
        exists j, k, r. split_and!; [done..|].
        apply (IH j k Hj). exists e'. split_and!; [done..|].
        rewrite (below_class_child _ _ _ _ k) in Hbelow by done.
        destruct Hbelow as [->|[Hc|Hb]]; [by left | | by right].
        left. apply orb_true_intro. right. by apply bool_decide_eq_true_2.
Qed.

(** [querySelectorAll('.cls tag')] lists exactly the elements named
    [tag] that lie below an element of class [cls]. *)
Lemma matches_spec cls tag n r :
  r ∈ matches (Descendant cls tag) n ↔ selected cls tag n r.
Proof.
  simpl. rewrite select_spec. unfold selected.
  split; intros (e & He & Htag & Hb); exists e; split_and!; try done.
  - by destruct Hb.
  - by right.
Qed.

Lemma nav_anchors_spec n r : r ∈ nav_anchors n ↔ selected "nav" "a" n r.
Proof. apply matches_spec. Qed.

End Selection.

(** ** What one run of [markActiveNav] does to the document *)

Section MarkActiveNav.

Implicit Types (n doc : node) (r a q : ref) (e : element) (here : string).

Lemma has_class_add_token tok e : has_class tok (add_token tok e) = true.
Proof.
  unfold add_token, has_class. simpl.
  apply bool_decide_eq_true_2. case_bool_decide; [done|].
  apply elem_of_app. right. by apply list_elem_of_singleton.
Qed.

Lemma has_class_add_token_ne c tok e :
  c ≠ tok → has_class c (add_token tok e) = has_class c e.
Proof.
  intros Hne. unfold add_token, has_class. simpl.
  destruct (bool_decide (tok ∈ classList e)); [done|].
  apply bool_decide_ext. rewrite elem_of_app, list_elem_of_singleton.
  split; [intros [?|?]; [done | congruence] | by left].
Qed.

Lemma add_token_idem tok e : add_token tok (add_token tok e) = add_token tok e.
Proof.
  unfold add_token at 1. rewrite has_class_add_token. by destruct e.
Qed.

Lemma add_token_present tok e : tok ∈ classList e → add_token tok e = e.
Proof.
  intros H. unfold add_token, has_class. rewrite bool_decide_eq_true_2 by done.
  by destruct e.
Qed.

Lemma classList_add_token c tok e :
  c ∈ classList (add_token tok e) ↔ c ∈ classList e ∨ c = tok.
Proof.
  unfold add_token, has_class. simpl. case_bool_decide as H.
  - split; [by left | by intros [?| ->]].
  - by rewrite elem_of_app, list_elem_of_singleton.
Qed.

Lemma marks_mark here e : marks here (mark here e) = marks here e.
Proof. unfold mark. by destruct (marks here e) eqn:E. Qed.

Lemma mark_idem here e : mark here (mark here e) = mark here e.
Proof.
  unfold mark at 1. rewrite marks_mark. unfold mark.
  destruct (marks here e); [apply add_token_idem | done].
Qed.

Lemma localName_mark here e : localName (mark here e) = localName e.
Proof. unfold mark. by destruct (marks here e). Qed.

Lemma has_class_mark c here e :
  c ≠ "active" → has_class c (mark here e) = has_class c e.
Proof.
  intros Hc. unfold mark. destruct (marks here e); [|done].
  by apply has_class_add_token_ne.
Qed.

(** The callback, run on a reference to an element, completes and
    updates that element by [mark]. *)
Lemma markActiveNav_each_run here a doc :
  is_Some (elem_at doc a) →
  markActiveNav_each here a doc = Ok () (alter_elem (mark here) a doc).
Proof.
  intros [e He]. unfold markActiveNav_each, bind, getAttribute. rewrite He.
  assert (∀ e', elem_at doc a = Some e' → e' = e) as Hsame by congruence.
  destruct (attr "href" e) as [h|] eqn:Hh; simpl.
  - destruct (String.eqb h "") eqn:Hempty; simpl.
    + unfold ret. f_equal. symmetry. apply alter_elem_id.
      intros e' ->%Hsame. unfold mark, marks. by rewrite Hh, Hempty.
    + fold (normalize h). case_bool_decide as Hnorm.
      * unfold classList_add. rewrite He. simpl. f_equal.
        apply alter_elem_ext. intros e' ->%Hsame. unfold mark, marks.
        by rewrite Hh, Hempty, bool_decide_eq_true_2.
      * unfold ret. f_equal. symmetry. apply alter_elem_id.
        intros e' ->%Hsame. unfold mark, marks.
        by rewrite Hh, Hempty, bool_decide_eq_false_2.
  - unfold ret. f_equal. symmetry. apply alter_elem_id.
    intros e' ->%Hsame. unfold mark, marks. by rewrite Hh.
Qed.

Lemma forEach_markActiveNav_each here l doc :
  Forall (λ a, is_Some (elem_at doc a)) l →
  forEach l (markActiveNav_each here) doc = Ok () (mark_all here l doc).
Proof.
  revert doc. induction l as [|a l IH]; intros doc Hl; [done|].
  apply Forall_cons in Hl as [Ha Hl].
  cbn [forEach]. unfold bind. rewrite markActiveNav_each_run by done.
  apply IH. eapply Forall_impl; [exact Hl|].
  intros q. apply elem_at_alter_elem_is_Some.
Qed.

(** One run: it completes, and the document it leaves is [mark_all]
    over the matches of [.nav a]. *)
Lemma markActiveNav_run pathname doc :
  markActiveNav pathname doc
  = Ok () (mark_all (normalize pathname) (matches (Descendant "nav" "a") doc) doc).
Proof.
  unfold markActiveNav, bind. simpl.
  apply forEach_markActiveNav_each, Forall_forall.
  apply (matches_elem (Descendant "nav" "a")).
Qed.

(** The elements after the loop: those in the list are updated by
    [mark], the others are as they were. *)
Lemma elem_at_mark_all here l doc q :
  elem_at (mark_all here l doc) q
  = if decide (q ∈ l) then mark here <$> elem_at doc q else elem_at doc q.
Proof.
  revert doc. induction l as [|a l IH]; intros doc.
  - rewrite decide_False by apply not_elem_of_nil. done.
  - unfold mark_all in *. simpl foldl. rewrite IH, elem_at_alter_elem.
    destruct (decide (a = q)) as [->|Hne].
    + rewrite (decide_True (P := q ∈ q :: l)) by apply list_elem_of_here.
      case_decide; [|done].
      destruct (elem_at doc q); simpl; [|done]. by rewrite mark_idem.
    + destruct (decide (q ∈ l)) as [Hin|Hnin].
      * by rewrite decide_True by by apply list_elem_of_further.
      * rewrite decide_False; [done|]. rewrite elem_of_cons.
        by intros [?|?].
Qed.

Lemma matches_mark_all sel_cls tag here l doc :
  sel_cls ≠ "active" →
  matches (Descendant sel_cls tag) (mark_all here l doc)
  = matches (Descendant sel_cls tag) doc.
Proof.
  intros Hc. revert doc. induction l as [|a l IH]; intros doc; [done|].
  unfold mark_all in *. simpl foldl. rewrite IH. simpl.
  apply select_alter_elem.
  - apply localName_mark.
  - intros e. by apply has_class_mark.
Qed.

(** Running the loop again over the same anchors changes nothing. *)
Lemma mark_all_again here l l' doc :
  l' ⊆ l → mark_all here l' (mark_all here l doc) = mark_all here l doc.
Proof.
  induction l' as [|a l' IH]; intros Hsub; [done|].
  unfold mark_all at 1. simpl. fold (mark_all here l').
  rewrite alter_elem_id.
  { apply IH. intros x Hx. by apply Hsub, list_elem_of_further. }
  intros e. rewrite elem_at_mark_all, decide_True by apply Hsub, list_elem_of_here.
  destruct (elem_at doc a) as [e0|]; simpl; [|done].
  intros [= <-]. apply mark_idem.
Qed.

End MarkActiveNav.

(** ** What one run of [setYear] does to the document *)

Section SetYear.

Implicit Types (n doc : node) (r y q : ref) (e : element).

#[local] Arguments String.append !_ _ / : simpl nomatch.

Lemma find_id_Elem x e kids :
  find_id x (Elem e kids)
  = if bool_decide (attr "id" e = Some x) then Some [] else find_in x 0 kids.
Proof.
  simpl. case_bool_decide; [done|]. generalize 0.
  induction kids as [|k kids IH]; intros i; simpl; [done|]. by rewrite IH.
Qed.

Lemma find_in_Some x i ks r :
  find_in x i ks = Some r →
  ∃ j k r', r = (i + j) :: r' ∧ ks !! j = Some k ∧ find_id x k = Some r'.
Proof.
  revert i. induction ks as [|k ks IH]; intros i; simpl; [done|].
  destruct (find_id x k) as [r'|] eqn:Hk.
  - intros [= <-]. exists 0, k, r'. by rewrite Nat.add_0_r.
  - intros (j & k' & r' & -> & Hj & Hr')%IH.
    exists (S j), k', r'. split_and!; [f_equal; lia | done | done].
Qed.

Lemma find_in_is_Some x i ks j k :
  ks !! j = Some k → is_Some (find_id x k) → is_Some (find_in x i ks).
Proof.
  revert i j. induction ks as [|k' ks IH]; intros i j Hj Hk; [done|]. simpl.
  destruct (find_id x k') as [r'|] eqn:Hk'; [eauto|].
  destruct j as [|j]; simpl in Hj.
  - injection Hj as ->. rewrite Hk' in Hk. by destruct Hk.
  - by eapply IH.
Qed.

(** What [getElementById] returns is an element with that id. *)
Lemma find_id_Some x n r :
  find_id x n = Some r → ∃ e, elem_at n r = Some e ∧ attr "id" e = Some x.
Proof.
  revert r. induction n as [s|e kids IH] using node_ind'; intros r; [done|].
  rewrite find_id_Elem. case_bool_decide as Hid.
  - intros [= <-]. by exists e.
  - intros (j & k & r' & -> & Hj & Hr')%find_in_Some.
    rewrite Forall_lookup in IH. destruct (IH j k Hj _ Hr') as (e' & He' & Hx).
    exists e'. split; [|done]. rewrite elem_at_cons. change (0 + j) with j.
    by rewrite Hj.
Qed.

(** It returns [null] only when no element has that id. *)
Lemma find_id_is_Some x n r e :
  elem_at n r = Some e → attr "id" e = Some x → is_Some (find_id x n).
Proof.
  revert r. induction n as [s|e0 kids IH] using node_ind'; intros r.
  - by rewrite elem_at_Text.
  - intros He Hx. rewrite find_id_Elem. case_bool_decide as Hid; [eauto|].
    destruct r as [|j r].
    + rewrite elem_at_nil in He. congruence.
    + rewrite elem_at_cons in He. destruct (kids !! j) as [k|] eqn:Hj; [|done].
      simpl in He. rewrite Forall_lookup in IH.
      eapply find_in_is_Some; [exact Hj|]. by eapply IH.
Qed.

Lemma find_id_None x n :
  (∀ r e, elem_at n r = Some e → attr "id" e ≠ Some x) → find_id x n = None.
Proof.
  intros Hno. destruct (find_id x n) as [r|] eqn:Hr; [|done].
  apply find_id_Some in Hr as (e & He & Hx). by destruct (Hno r e).
Qed.

Lemma elem_at_node_at n r e : elem_at n r = Some e → is_Some (node_at n r).
Proof. unfold elem_at. destruct (node_at n r); [eauto | done]. Qed.

Lemma node_at_alter_at (f : node → node) r n :
  node_at (alter_at f r n) r = f <$> node_at n r.
Proof.
  revert n. induction r as [|i r IH]; intros n; [done|].
  destruct n as [s|e kids]; [done|]. simpl.
  rewrite list_lookup_alter_eq. destruct (kids !! i); [apply IH | done].
Qed.

Lemma append_empty_r (s : string) : s +:+ "" = s.
Proof. induction s as [|c s IH]; simpl; [done | by rewrite IH]. Qed.

(** The text written is the text read back. *)
Lemma textContent_replace_all s n : textContent (replace_all s n) = s.
Proof.
  destruct n as [s0|e kids]; [done|]. simpl.
  destruct (String.eqb_spec s "") as [->|_]; [done | apply append_empty_r].
Qed.

(** [setYear] on a document where [getElementById] finds the element. *)
Lemma setYear_found clock doc y :
  find_id "y" doc = Some y →
  setYear clock doc
  = Ok () (alter_at (replace_all (Date.ToString (Date.getFullYear clock))) y doc).
Proof.
  intros Hy. unfold setYear, bind, getElementById. rewrite Hy. simpl.
  apply find_id_Some in Hy as (e & [k Hk]%elem_at_node_at & _). by rewrite Hk.
Qed.

Lemma setYear_not_found clock doc :
  find_id "y" doc = None → setYear clock doc = Ok () doc.
Proof. intros Hy. unfold setYear, bind, getElementById. by rewrite Hy. Qed.

End SetYear.

(** * The routines against their description *)

Section Highlighter.

Implicit Types (doc : node) (a q : ref) (e : element) (pathname here h : string).

Lemma marks_true here e h :
  attr "href" e = Some h → h ≠ "" → normalize h = here → marks here e = true.
Proof.
  intros Hh Hne Hnorm. unfold marks. rewrite Hh.
  destruct (String.eqb_spec h ""); [done|]. simpl. by apply bool_decide_eq_true_2.
Qed.

Lemma marks_false_ne here e h :
  attr "href" e = Some h → normalize h ≠ here → marks here e = false.
Proof.
  intros Hh Hnorm. unfold marks. rewrite Hh.
  rewrite bool_decide_eq_false_2 by done. apply andb_false_r.
Qed.

Lemma marks_false_empty here e : attr "href" e = Some "" → marks here e = false.
Proof. intros Hh. unfold marks. by rewrite Hh. Qed.

Lemma marks_false_absent here e : attr "href" e = None → marks here e = false.
Proof. intros Hh. unfold marks. by rewrite Hh. Qed.

Lemma flagged_mark_true here e :
  marks here e = true → "active" ∈ classList (mark here e).
Proof. intros H. unfold mark. rewrite H. apply classList_add_token. by right. Qed.

Lemma mark_false here e : marks here e = false → mark here e = e.
Proof. intros H. unfold mark. by rewrite H. Qed.

Lemma classList_mark here e c : c ∈ classList e → c ∈ classList (mark here e).
Proof.
  intros H. unfold mark. destruct (marks here e); [|done].
  apply classList_add_token. by left.
Qed.

(** The document after one run, element by element. *)
Lemma elem_at_markActiveNav pathname doc :
  ∃ doc', markActiveNav pathname doc = Ok () doc' ∧
    ∀ q, elem_at doc' q
         = if decide (q ∈ nav_anchors doc)
           then mark (normalize pathname) <$> elem_at doc q
           else elem_at doc q.
Proof.
  eexists. split; [apply markActiveNav_run|]. intros q. apply elem_at_mark_all.
Qed.

(** A navigation anchor on which the test of the callback fails is
    left as it was. *)
Lemma markActiveNav_skips pathname doc doc' a e :
  markActiveNav pathname doc = Ok () doc' →
  elem_at doc a = Some e → marks (normalize pathname) e = false →
  elem_at doc' a = Some e.
Proof.
  intros Hrun He Hm.
  destruct (elem_at_markActiveNav pathname doc) as (doc1 & Hrun1 & Hat).
  assert (doc1 = doc') as -> by congruence.
  rewrite Hat, He. case_decide; [|done]. simpl. by rewrite mark_false.
Qed.

(** A navigation anchor on which the test succeeds is flagged. *)
Lemma markActiveNav_flags pathname doc doc' a e :
  markActiveNav pathname doc = Ok () doc' →
  a ∈ nav_anchors doc → elem_at doc a = Some e →
  marks (normalize pathname) e = true →
  flagged doc' a.
Proof.
  intros Hrun Ha He Hm.
  destruct (elem_at_markActiveNav pathname doc) as (doc1 & Hrun1 & Hat).
  assert (doc1 = doc') as -> by congruence.
  exists (mark (normalize pathname) e). split.
  - by rewrite Hat, decide_True, He.
  - by apply flagged_mark_true.
Qed.

End Highlighter.

(** ** The navigation highlighter *)

(** C1, as the code has it: for every navigation anchor whose [href]
    attribute is present and not the empty string, [markActiveNav]
    completes; the anchor carries the active flag afterwards if its
    normalised link target is the same string as the normalised current
    path, and if the two strings differ the anchor is left exactly as it
    was (no flag is applied, whatever prefix the strings share). *)
Theorem markActiveNav_exact_match
    (pathname : string) (doc : node) (a : ref) (e : element) (h : string) :
  a ∈ nav_anchors doc → elem_at doc a = Some e →
  attr "href" e = Some h → h ≠ "" →
  ∃ doc', markActiveNav pathname doc = Ok () doc' ∧
    (normalize h = normalize pathname → flagged doc' a) ∧
    (normalize h ≠ normalize pathname → elem_at doc' a = Some e).
Proof.
  intros Ha He Hh Hne.
  destruct (elem_at_markActiveNav pathname doc) as (doc' & Hrun & _).
  exists doc'. split; [done|]. split; intros Hnorm.
  - eapply markActiveNav_flags; [done.. |]. by apply (marks_true _ _ h).
  - eapply markActiveNav_skips; [done.. |]. by apply (marks_false_ne _ _ h).
Qed.

(** On the sample page: at [/blog/index.html] the link to [/blog/] is
    flagged, at [/] it is not touched. *)
Lemma markActiveNav_exact_match_witness :
  (∃ doc', markActiveNav "/blog/index.html" Sample.page = Ok () doc' ∧
           flagged doc' [0; 1]) ∧
  (∃ doc', markActiveNav "/" Sample.page = Ok () doc' ∧
           elem_at doc' [0; 1] = Some (Element "a" [("href", "/blog/")] ["btn"])).
Proof.
  split.
  - destruct (markActiveNav_exact_match "/blog/index.html" Sample.page [0; 1]
                (Element "a" [("href", "/blog/")] ["btn"]) "/blog/")
      as (doc' & Hrun & Heq & _).
    + by_evaluation.
    + reflexivity.
    + reflexivity.
    + discriminate.
    + exists doc'. split; [exact Hrun|]. apply Heq. reflexivity.
  - destruct (markActiveNav_exact_match "/" Sample.page [0; 1]
                (Element "a" [("href", "/blog/")] ["btn"]) "/blog/")
      as (doc' & Hrun & _ & Hne).
    + by_evaluation.
    + reflexivity.
    + reflexivity.
    + discriminate.
    + exists doc'. split; [exact Hrun|]. apply Hne. discriminate.
Defined.

(** C1 as it is worded fails: on a page whose path is the empty string,
    a navigation anchor with [href=""] has a normalised target equal to
    the normalised path, and is not flagged (the callback returns at
    [if(!href)]). The input is [Sample.page_empty_href] with the path
    [""]. *)
Lemma flags_every_equal_target_fails : ¬ flags_every_equal_target.
Proof.
  intros H.
  destruct (H "" Sample.page_empty_href [0] (Element "a" [("href", "")] []) "")
    as (doc' & Hrun & Hflag & _).
  - by_evaluation.
  - reflexivity.
  - reflexivity.
  - injection Hrun as <-.
    destruct (Hflag eq_refl) as (e & He & Hin).
    injection He as <-. by apply elem_of_nil in Hin.
Qed.

(** C2: normalisation maps a path that ends in the default document to
    its directory on both sides of the comparison: whether the current
    path is [q/index.html] and the target of a navigation anchor is
    [q/], or the current path is [q/] and the target [q/index.html],
    the anchor is flagged. With [q] the strings [/blog] and [/about]
    these are the two examples: path [/blog/index.html] with target
    [/blog/], and path [/about/] with target [/about/index.html]. *)
Theorem markActiveNav_default_document
    (q pathname h : string) (doc : node) (a : ref) (e : element) :
  (pathname = q +:+ "/index.html" ∧ h = q +:+ "/")
  ∨ (pathname = q +:+ "/" ∧ h = q +:+ "/index.html") →
  a ∈ nav_anchors doc → elem_at doc a = Some e → attr "href" e = Some h →
  ∃ doc', markActiveNav pathname doc = Ok () doc' ∧ flagged doc' a.
Proof.
  intros Hcase Ha He Hh.
  destruct (elem_at_markActiveNav pathname doc) as (doc' & Hrun & _).
  exists doc'. split; [done|].
  eapply markActiveNav_flags; [done.. |].
  assert (normalize (q +:+ "/") = q +:+ "/") as Hdir.
  { apply normalize_other. intros q'. apply slash_not_index_html. }
  apply (marks_true _ _ h); [done| |];
    destruct Hcase as [[-> ->]|[-> ->]].
  - by destruct q.
  - by destruct q.
  - by rewrite normalize_suffix.
  - by rewrite normalize_suffix.
Qed.

Lemma markActiveNav_default_document_witness :
  (∃ doc', markActiveNav "/blog/index.html" Sample.page = Ok () doc' ∧
           flagged doc' [0; 1]) ∧
  (∃ doc', markActiveNav "/about/" Sample.page = Ok () doc' ∧
           flagged doc' [0; 4]).
Proof.
  split.
  - apply (markActiveNav_default_document "/blog" "/blog/index.html" "/blog/"
             Sample.page [0; 1] (Element "a" [("href", "/blog/")] ["btn"])).
    + left. split; reflexivity.
    + by_evaluation.
    + reflexivity.
    + reflexivity.
  - apply (markActiveNav_default_document "/about" "/about/" "/about/index.html"
             Sample.page [0; 4]
             (Element "a" [("href", "/about/index.html")] [])).
    + right. split; reflexivity.
    + by_evaluation.
    + reflexivity.
    + reflexivity.
Defined.

(** C3: normalisation is idempotent: normalising a normalised path
    returns it unchanged, for every string. *)
Theorem normalize_idempotent (p : string) :
  normalize (normalize p) = normalize p.
Proof. apply normalize_idem. Qed.

(** C10: normalisation changes only the strings that end in the exact
    segment [/index.html]: a string without that suffix is returned as
    it is. The witness instantiates it at [index.html] and at
    [/myindex.html]. *)
Theorem normalize_only_index_html_segment (p : string) :
  (∀ q, p ≠ q +:+ "/index.html") → normalize p = p.
Proof. apply normalize_other. Qed.

Lemma normalize_only_index_html_segment_witness :
  normalize "index.html" = "index.html" ∧
  normalize "/myindex.html" = "/myindex.html".
Proof.
  split.
  - apply (normalize_only_index_html_segment "index.html").
    apply ends_with_false. reflexivity.
  - apply (normalize_only_index_html_segment "/myindex.html").
    apply ends_with_false. reflexivity.
Defined.

(** C6: a navigation anchor without an [href] attribute is skipped:
    [markActiveNav] completes without an exception, the anchor is
    exactly as it was, and the other anchors are still processed, so
    that every anchor with a matching non-empty target is flagged,
    wherever it stands in the list. *)
Theorem markActiveNav_skips_missing_href
    (pathname : string) (doc : node) (a : ref) (e : element) :
  a ∈ nav_anchors doc → elem_at doc a = Some e → attr "href" e = None →
  ∃ doc', markActiveNav pathname doc = Ok () doc' ∧
    elem_at doc' a = Some e ∧
    ∀ b eb h, b ∈ nav_anchors doc → elem_at doc b = Some eb →
      attr "href" eb = Some h → h ≠ "" →
      normalize h = normalize pathname → flagged doc' b.
Proof.
  intros Ha He Hh.
  destruct (elem_at_markActiveNav pathname doc) as (doc' & Hrun & _).
  exists doc'. split; [done|]. split.
  - eapply markActiveNav_skips; [done.. |]. by apply marks_false_absent.
  - intros b eb h Hb Heb Hhb Hne Hnorm.
    eapply markActiveNav_flags; [done.. |]. by apply (marks_true _ _ h).
Qed.

Lemma markActiveNav_skips_missing_href_witness :
  ∃ doc', markActiveNav "/about/" Sample.page = Ok () doc' ∧
    elem_at doc' [0; 2] = Some (Element "a" [] []) ∧
    ∀ b eb h, b ∈ nav_anchors Sample.page → elem_at Sample.page b = Some eb →
      attr "href" eb = Some h → h ≠ "" →
      normalize h = normalize "/about/" → flagged doc' b.
Proof.
  apply (markActiveNav_skips_missing_href "/about/" Sample.page [0; 2]
           (Element "a" [] [])).
  - by_evaluation.
  - reflexivity.
  - reflexivity.
Defined.

(** C9: a navigation anchor whose [href] attribute is present and empty
    is treated as one without the attribute: [markActiveNav] completes
    without an exception and leaves the anchor exactly as it was, so it
    is never marked by the routine, for every current path, the empty
    one included. *)
Theorem markActiveNav_skips_empty_href
    (pathname : string) (doc : node) (a : ref) (e : element) :
  a ∈ nav_anchors doc → elem_at doc a = Some e → attr "href" e = Some "" →
  ∃ doc', markActiveNav pathname doc = Ok () doc' ∧
    elem_at doc' a = Some e ∧
    ("active" ∉ classList e → ¬ flagged doc' a).
Proof.
  intros Ha He Hh.
  destruct (elem_at_markActiveNav pathname doc) as (doc' & Hrun & _).
  exists doc'. split; [done|].
  assert (elem_at doc' a = Some e) as He'.
  { eapply markActiveNav_skips; [done.. |]. by apply marks_false_empty. }
  split; [done|]. intros Hno (e' & He'' & Hin). congruence.
Qed.

(** On the page with the single empty link, at the empty path, where
    the normalised strings are equal. *)
Lemma markActiveNav_skips_empty_href_witness :
  normalize "" = normalize "" ∧
  ∃ doc', markActiveNav "" Sample.page_empty_href = Ok () doc' ∧
    elem_at doc' [0] = Some (Element "a" [("href", "")] []) ∧
    ¬ flagged doc' [0].
Proof.
  split; [reflexivity|].
  destruct (markActiveNav_skips_empty_href "" Sample.page_empty_href [0]
              (Element "a" [("href", "")] []))
    as (doc' & Hrun & Hsame & Hnot).
  - by_evaluation.
  - reflexivity.
  - reflexivity.
  - exists doc'. split; [exact Hrun|]. split; [exact Hsame|].
    apply Hnot. apply not_elem_of_nil.
Defined.

(** C8: [markActiveNav] never removes an active flag: an element that
    carries the flag before the run carries it after the run, whether
    or not its target matches the current path. *)
Theorem markActiveNav_keeps_flags (pathname : string) (doc : node) (q : ref) :
  flagged doc q →
  ∃ doc', markActiveNav pathname doc = Ok () doc' ∧ flagged doc' q.
Proof.
  intros (e & He & Hin).
  destruct (elem_at_markActiveNav pathname doc) as (doc' & Hrun & Hat).
  exists doc'. split; [done|]. specialize (Hat q). rewrite He in Hat.
  case_decide.
  - exists (mark (normalize pathname) e). split; [done|]. by apply classList_mark.
  - by exists e.
Qed.

(** The stale flag on the link to [/old/] survives a run at [/]. *)
Lemma markActiveNav_keeps_flags_witness :
  ∃ doc', markActiveNav "/" Sample.page = Ok () doc' ∧ flagged doc' [0; 5].
Proof.
  apply (markActiveNav_keeps_flags "/" Sample.page [0; 5]).
  exists (Element "a" [("href", "/old/")] ["active"]). split.
  - reflexivity.
  - by_evaluation.
Defined.

(** C7: [markActiveNav] is idempotent on an unchanged page: the first
    run completes, the second run on its result completes and returns
    the very same document, so the anchors that carry the active flag
    after two runs are those that carry it after one. *)
Theorem markActiveNav_idempotent (pathname : string) (doc : node) :
  ∃ doc1 doc2,
    markActiveNav pathname doc = Ok () doc1 ∧
    markActiveNav pathname doc1 = Ok () doc2 ∧
    doc2 = doc1 ∧
    ∀ a, flagged doc2 a ↔ flagged doc1 a.
Proof.
  exists (mark_all (normalize pathname) (nav_anchors doc) doc).
  exists (mark_all (normalize pathname) (nav_anchors doc) doc).
  split; [apply markActiveNav_run|]. split; [|done].
  rewrite markActiveNav_run. f_equal.
  rewrite matches_mark_all by done. by apply mark_all_again.
Qed.

(** ** The year stamper *)

(** C4, as the code has it: at every instant, when an element with the
    id [y] exists, [setYear] completes and the text of the element that
    [getElementById] finds is afterwards the decimal numeral of the
    calendar year of that instant in local time; that numeral has four
    digits when the year is from 1000 to 9999. *)
Theorem setYear_stamps_local_year
    (clock : Date.clock) (doc : node) (r : ref) (e : element) :
  elem_at doc r = Some e → attr "id" e = Some "y" →
  ∃ doc' y,
    setYear clock doc = Ok () doc' ∧ find_id "y" doc = Some y ∧
    textContent <$> node_at doc' y
      = Some (Date.ToString (Date.getFullYear clock)) ∧
    (Date.TimeFromYear (Date.getFullYear clock) <= Date.LocalTime clock
       < Date.TimeFromYear (Date.getFullYear clock + 1))%Z ∧
    ((1000 <= Date.getFullYear clock <= 9999)%Z →
     Date.four_digits (Date.ToString (Date.getFullYear clock)) = true).
Proof.
  intros He Hid.
  destruct (find_id_is_Some "y" doc r e He Hid) as [y Hy].
  eexists _, y. split; [by apply setYear_found|]. split; [done|].
  split; [|split].
  - rewrite node_at_alter_at.
    apply find_id_Some in Hy as (ey & [k Hk]%elem_at_node_at & _).
    rewrite Hk. simpl. by rewrite textContent_replace_all.
  - apply YearFromTime_bounds.
  - apply ToString_four_digits.
Qed.

Lemma setYear_stamps_local_year_witness :
  Date.getFullYear Sample.noon_2026 = 2026%Z ∧
  ∃ doc',
    setYear Sample.noon_2026 Sample.page = Ok () doc' ∧
    find_id "y" Sample.page = Some [2; 1] ∧
    textContent <$> node_at doc' [2; 1] = Some "2026" ∧
    Date.four_digits "2026" = true.
Proof.
  split; [reflexivity|].
  destruct (setYear_stamps_local_year Sample.noon_2026 Sample.page [2; 1]
              (Element "span" [("id", "y")] []))
    as (doc' & y & Hrun & Hy & Htext & _ & Hfour).
  - reflexivity.
  - reflexivity.
  - injection Hy as <-. exists doc'. split; [exact Hrun|].
    split; [reflexivity|]. split; [exact Htext|].
    apply Hfour. split; discriminate.
Defined.

(** C4 as it is worded fails: on 1 January 10000 the text written is
    [10000], the year, in five digits. The input is
    [Sample.page_year_only] with the clock [Sample.year_10000]. *)
Lemma stamps_four_digits_always_fails : ¬ stamps_four_digits_always.
Proof.
  intros H.
  destruct (H Sample.year_10000 Sample.page_year_only []
              (Element "span" [("id", "y")] []) eq_refl eq_refl)
    as (doc' & y & _ & _ & _ & Hfour).
  vm_compute in Hfour. discriminate Hfour.
Qed.

(** C5: when no element has the id [y], [setYear] completes without an
    exception and the document is the one it started from. *)
Theorem setYear_absent_is_noop (clock : Date.clock) (doc : node) :
  (∀ r e, elem_at doc r = Some e → attr "id" e ≠ Some "y") →
  setYear clock doc = Ok () doc.
Proof. intros Hno. by apply setYear_not_found, find_id_None. Qed.

Lemma setYear_absent_is_noop_witness :
  setYear Sample.noon_2026 Sample.page_without_year
  = Ok () Sample.page_without_year.
Proof.
  apply (setYear_absent_is_noop Sample.noon_2026 Sample.page_without_year).
  intros r e He Hid.
  pose proof (find_id_is_Some "y" Sample.page_without_year r e He Hid) as Hsome.
  vm_compute in Hsome. by destruct Hsome.
Defined.

(** * Further properties of the script *)

(** ** Documents position by position *)

Section Labels.

Implicit Types (n : node) (r q y : ref) (e : element) (f g : element → element).

Lemma label_at_nil n : label_at n [] = Some (label n).
Proof. done. Qed.

Lemma label_at_cons e kids i q :
  label_at (Elem e kids) (i :: q) = kids !! i ≫= λ k, label_at k q.
Proof. unfold label_at. simpl. by destruct (kids !! i). Qed.

Lemma label_at_Text_cons s i q : label_at (Text s) (i :: q) = None.
Proof. done. Qed.

Lemma elem_at_label_at n q :
  elem_at n q = label_at n q ≫= λ l, match l with inl e => Some e | inr _ => None end.
Proof. unfold elem_at, label_at. by destruct (node_at n q) as [[|]|]. Qed.

(** Two documents with the same node at every position are the same. *)
Lemma node_ext n n' : (∀ q, label_at n q = label_at n' q) → n = n'.
Proof.
  revert n'. induction n as [s|e kids IH] using node_ind'; intros n' H.
  - specialize (H []). rewrite !label_at_nil in H. by destruct n'; simplify_eq/=.
  - pose proof (H []) as H0. rewrite !label_at_nil in H0.
    destruct n' as [|e' kids']; simplify_eq/=. f_equal.
    rewrite Forall_lookup in IH. apply list_eq. intros i.
    pose proof (H [i]) as Hi. rewrite !label_at_cons in Hi.
    destruct (kids !! i) as [k|] eqn:Hk, (kids' !! i) as [k'|] eqn:Hk';
      simplify_eq/=; [|done].
    f_equal. apply (IH i k Hk). intros q. specialize (H (i :: q)).
    by rewrite !label_at_cons, Hk, Hk' in H.
Qed.

Lemma label_at_alter_elem f r q n :
  label_at (alter_elem f r n) q
  = if decide (r = q) then map_label f <$> label_at n q else label_at n q.
Proof.
  revert q n. induction r as [|i r IH]; intros q n.
  - rewrite alter_elem_nil. destruct n as [s|e kids], q as [|j q]; try done.
  - destruct n as [s|e kids].
    + rewrite alter_elem_Text. case_decide; [subst q|]; done.
    + rewrite alter_elem_cons. destruct q as [|j q]; [done|].
      rewrite !label_at_cons. destruct (decide (i = j)) as [->|Hij].
      * rewrite list_lookup_alter_eq. destruct (kids !! j) as [k|]; simpl.
        -- rewrite IH. repeat case_decide; congruence.
        -- by case_decide.
      * rewrite list_lookup_alter_ne by done. case_decide; congruence.
Qed.

Lemma label_at_mark_all here l doc q :
  label_at (mark_all here l doc) q
  = if decide (q ∈ l) then map_label (mark here) <$> label_at doc q
    else label_at doc q.
Proof.
  revert doc. induction l as [|a l IH]; intros doc.
  - rewrite decide_False by apply not_elem_of_nil. done.
  - unfold mark_all in *. simpl foldl. rewrite IH, label_at_alter_elem.
    destruct (decide (a = q)) as [->|Hne].
    + rewrite (decide_True (P := q ∈ q :: l)) by apply list_elem_of_here.
      case_decide; [|done].
      destruct (label_at doc q) as [[e|s]|]; simpl; [|done..].
      by rewrite mark_idem.
    + destruct (decide (q ∈ l)) as [Hin|Hnin].
      * by rewrite decide_True by by apply list_elem_of_further.
      * rewrite decide_False; [done|]. rewrite elem_of_cons.
        by intros [?|?].
Qed.

End Labels.

(** ** The reach of [setYear] *)

Section SetYearFrame.

Implicit Types (n doc : node) (r q y : ref) (e : element) (s : string).

Lemma strictly_below_nil q : strictly_below [] q ↔ q ≠ [].
Proof.
  split.
  - by intros (r & Hr & ->).
  - intros Hq. by exists q.
Qed.

Lemma strictly_below_cons i y j q :
  strictly_below (i :: y) (j :: q) ↔ i = j ∧ strictly_below y q.
Proof.
  split.
  - intros (r & Hr & E). simpl in E. injection E as -> ->. split; [done|]. by exists r.
  - intros [-> (r & Hr & ->)]. by exists r.
Qed.

Lemma not_strictly_below_cons_nil i y : ¬ strictly_below (i :: y) [].
Proof. by intros (r & _ & ?). Qed.

Lemma node_at_app n y r : node_at n (y ++ r) = node_at n y ≫= λ k, node_at k r.
Proof.
  revert n. induction y as [|i y IH]; intros n; [done|].
  destruct n as [s|e kids]; [done|]. simpl.
  destruct (kids !! i) as [k|]; [apply IH | done].
Qed.

Lemma replace_all_Elem s e kids :
  replace_all s (Elem e kids) = Elem e (text_children s).
Proof. done. Qed.

Lemma elem_at_Some_node_at n q e :
  elem_at n q = Some e ↔ ∃ kids, node_at n q = Some (Elem e kids).
Proof.
  unfold elem_at. destruct (node_at n q) as [[s|e' kids]|]; split;
    try done; try by intros [? ?].
  - intros [= ->]. eauto.
  - by intros [? [= -> ->]].
Qed.

(** Below the element written to there is the new text and nothing else. *)
Lemma node_at_replaced s y n e r :
  elem_at n y = Some e →
  node_at (alter_at (replace_all s) y n) (y ++ r)
  = node_at (Elem e (text_children s)) r.
Proof.
  intros [kids Hy]%elem_at_Some_node_at.
  by rewrite node_at_app, node_at_alter_at, Hy.
Qed.

Lemma elem_at_replaced s y n e r :
  elem_at n y = Some e →
  elem_at (alter_at (replace_all s) y n) (y ++ r)
  = elem_at (Elem e (text_children s)) r.
Proof. intros Hy. unfold elem_at. by rewrite (node_at_replaced s y n e r Hy). Qed.

(** Outside the element written to every node is as it was. *)
Lemma label_at_replace_all_outside s y n q e :
  elem_at n y = Some e → ¬ strictly_below y q →
  label_at (alter_at (replace_all s) y n) q = label_at n q.
Proof.
  revert n q. induction y as [|i y IH]; intros n q Hy Hq.
  - destruct q as [|j q]; [|by destruct Hq; apply strictly_below_nil].
    destruct n; [by rewrite elem_at_Text in Hy | done].
  - destruct n as [s0|e0 kids]; [done|]. destruct q as [|j q]; [done|].
    simpl alter_at. rewrite !label_at_cons. rewrite elem_at_cons in Hy.
    destruct (decide (i = j)) as [->|Hij].
    + rewrite list_lookup_alter_eq. destruct (kids !! j) as [k|]; [|done]. simpl in *.
      apply (IH k q Hy). intros Hb. apply Hq. by apply strictly_below_cons.
    + by rewrite list_lookup_alter_ne.
Qed.

Lemma elem_at_replace_all_outside s y n q e :
  elem_at n y = Some e → ¬ strictly_below y q →
  elem_at (alter_at (replace_all s) y n) q = elem_at n q.
Proof.
  intros Hy Hq. rewrite !elem_at_label_at.
  by rewrite (label_at_replace_all_outside s y n q e).
Qed.

Lemma elem_at_text_children s e r e' :
  r ≠ [] → elem_at (Elem e (text_children s)) r ≠ Some e'.
Proof.
  intros Hr. destruct r as [|i r]; [done|]. rewrite elem_at_cons.
  unfold text_children. destruct (String.eqb s ""); [done|].
  destruct i as [|i]; simpl; [by rewrite elem_at_Text | done].
Qed.

(** The numeral of a number is never the empty string. *)
Lemma string_of_uint_nonempty d : d ≠ Decimal.Nil → NilEmpty.string_of_uint d ≠ "".
Proof. by destruct d. Qed.

Lemma ToString_nonempty (z : Z) : Date.ToString z ≠ "".
Proof.
  unfold Date.ToString, NilZero.string_of_int.
  destruct (Z.to_int z) as [d|d]; [|done].
  unfold NilZero.string_of_uint. by destruct d.
Qed.

Lemma text_children_ToString z :
  text_children (Date.ToString z) = [Text (Date.ToString z)].
Proof.
  unfold text_children. by destruct (String.eqb_spec (Date.ToString z) "") as [?%ToString_nonempty|].
Qed.

(** A search by id does not see an update that keeps the attributes. *)
Lemma find_in_alter_same x (h : node → node) i j ks :
  (∀ k, ks !! i = Some k → find_id x (h k) = find_id x k) →
  find_in x j (alter h i ks) = find_in x j ks.
Proof.
  revert i j. induction ks as [|k ks IH]; intros i j Hh; [done|].
  destruct i as [|i]; simpl.
  - by rewrite Hh.
  - destruct (find_id x k); [done|]. apply IH. intros k' Hk'. by apply Hh.
Qed.

Lemma find_id_alter_elem x (f : element → element) r n :
  (∀ e, attributes (f e) = attributes e) →
  find_id x (alter_elem f r n) = find_id x n.
Proof.
  intros Hattr. revert n.
  induction r as [|i r IH]; intros [s|e kids]; try done.
  - rewrite alter_elem_nil. simpl on_element. rewrite !find_id_Elem.
    unfold attr. by rewrite Hattr.
  - rewrite alter_elem_cons, !find_id_Elem. case_bool_decide; [done|].
    apply find_in_alter_same. intros k _. apply IH.
Qed.

Lemma attributes_mark here e : attributes (mark here e) = attributes e.
Proof. unfold mark. by destruct (marks here e). Qed.

Lemma find_id_mark_all x here l doc :
  find_id x (mark_all here l doc) = find_id x doc.
Proof.
  revert doc. induction l as [|a l IH]; intros doc; [done|].
  unfold mark_all in *. simpl foldl. rewrite IH.
  apply find_id_alter_elem, attributes_mark.
Qed.

(** The element found by id is found again after its children were replaced. *)
Lemma find_in_alter_found x (h : node → node) ks :
  ∀ j i r, find_in x j ks = Some ((j + i) :: r) →
    (∀ k, ks !! i = Some k → find_id x k = Some r → find_id x (h k) = Some r) →
    find_in x j (alter h i ks) = Some ((j + i) :: r).
Proof.
  induction ks as [|k ks IH]; intros j i r Hfind Hh; [done|]. simpl in Hfind.
  destruct (find_id x k) as [r0|] eqn:Hk.
  - injection Hfind as Hi ->. assert (i = 0) as -> by lia. simpl.
    by rewrite (Hh k eq_refl Hk), Nat.add_0_r.
  - pose proof Hfind as (j' & k' & r' & E & _)%find_in_Some.
    injection E as E _. destruct i as [|i]; [lia|]. simpl. rewrite Hk.
    replace (j + S i) with (S j + i) in * by lia.
    apply IH; [done|]. intros k0 Hk0. by apply Hh.
Qed.

Lemma find_id_replace_all x s y n :
  find_id x n = Some y → find_id x (alter_at (replace_all s) y n) = Some y.
Proof.
  revert n. induction y as [|i y IH]; intros [s0|e kids]; try done.
  - change (alter_at (replace_all s) [] (Elem e kids))
      with (Elem e (text_children s)).
    rewrite !find_id_Elem. case_bool_decide; [done|]. by intros (j & ? & ? & ? & _)%find_in_Some.
  - change (alter_at (replace_all s) (i :: y) (Elem e kids))
      with (Elem e (alter (alter_at (replace_all s) y) i kids)).
    rewrite !find_id_Elem. case_bool_decide; [done|]. intros Hfind.
    apply (find_in_alter_found x _ kids 0 i y Hfind). intros k _. apply IH.
Qed.

Lemma alter_at_twice (f g : node → node) r n :
  alter_at f r (alter_at g r n) = alter_at (f ∘ g) r n.
Proof.
  revert n. induction r as [|i r IH]; intros [s|e kids]; try done.
  simpl. f_equal. rewrite list_alter_alter_eq. apply list_alter_ext; [|done].
  intros k _. apply IH.
Qed.

Lemma alter_at_ext (f g : node → node) r n :
  (∀ k, f k = g k) → alter_at f r n = alter_at g r n.
Proof.
  intros Hfg. revert n. induction r as [|i r IH]; intros [s|e kids]; simpl; try done.
  f_equal. apply list_alter_ext; [|done]. intros k _. apply IH.
Qed.

Lemma replace_all_twice s1 s2 k : replace_all s2 (replace_all s1 k) = replace_all s2 k.
Proof. by destruct k. Qed.

End SetYearFrame.

(** ** Auxiliary facts *)

Section Helpers.

Implicit Types (n doc : node) (r q y : ref) (e : element) (f : element → element).

Lemma marks_true_iff here e :
  marks here e = true ↔
  ∃ h, attr "href" e = Some h ∧ h ≠ "" ∧ normalize h = here.
Proof.
  unfold marks. split.
  - destruct (attr "href" e) as [h|]; [|done].
    intros [Hne Hnorm%bool_decide_eq_true]%andb_prop. exists h.
    split_and!; [done| |done]. intros ->. done.
  - intros (h & -> & Hne & Hnorm).
    destruct (String.eqb_spec h ""); [done|]. simpl. by apply bool_decide_eq_true_2.
Qed.

Lemma target_matches_marks pathname doc q e :
  elem_at doc q = Some e →
  target_matches pathname doc q
  ↔ q ∈ nav_anchors doc ∧ marks (normalize pathname) e = true.
Proof.
  intros He. unfold target_matches. rewrite marks_true_iff. split.
  - intros [Hq (e' & h & He' & Hh)]. split; [done|]. exists h. congruence.
  - intros [Hq (h & Hh)]. split; [done|]. by exists e, h.
Qed.

Lemma classList_mark_iff here e c :
  c ∈ classList (mark here e)
  ↔ c ∈ classList e ∨ (c = "active" ∧ marks here e = true).
Proof.
  unfold mark. destruct (marks here e).
  - rewrite classList_add_token. intuition.
  - intuition discriminate.
Qed.

Lemma textContent_Elem e kids : textContent (Elem e kids) = concat_text kids.
Proof.
  simpl. induction kids as [|k kids IH]; simpl; [done | by rewrite IH].
Qed.

Lemma concat_text_alter (h : node → node) i ks :
  (∀ k, ks !! i = Some k → textContent (h k) = textContent k) →
  concat_text (alter h i ks) = concat_text ks.
Proof.
  revert i. induction ks as [|k ks IH]; intros i Hh; [done|].
  destruct i as [|i]; simpl.
  - by rewrite Hh.
  - f_equal. apply IH. intros k' Hk'. by apply Hh.
Qed.

Lemma textContent_alter_elem f r n :
  textContent (alter_elem f r n) = textContent n.
Proof.
  revert n. induction r as [|i r IH]; intros [s|e kids]; try done.
  rewrite alter_elem_cons, !textContent_Elem.
  apply concat_text_alter. intros k _. apply IH.
Qed.

(** An update of an element changes the text of no node. *)
Lemma textContent_node_at_alter_elem f r n q :
  textContent <$> node_at (alter_elem f r n) q = textContent <$> node_at n q.
Proof.
  revert r n. induction q as [|j q IH]; intros r n.
  - simpl. by rewrite textContent_alter_elem.
  - destruct n as [s|e kids]; [by rewrite alter_elem_Text|].
    destruct r as [|i r]; [done|]. rewrite alter_elem_cons. simpl.
    destruct (decide (i = j)) as [->|Hij].
    + rewrite list_lookup_alter_eq. destruct (kids !! j) as [k|]; [apply IH | done].
    + by rewrite list_lookup_alter_ne.
Qed.

Lemma textContent_node_at_mark_all here l doc q :
  textContent <$> node_at (mark_all here l doc) q = textContent <$> node_at doc q.
Proof.
  revert doc. induction l as [|a l IH]; intros doc; [done|].
  unfold mark_all in *. simpl foldl. by rewrite IH, textContent_node_at_alter_elem.
Qed.

Lemma strictly_below_b_spec y q :
  strictly_below_b y q = true ↔ strictly_below y q.
Proof.
  revert q. induction y as [|i y IH]; intros [|j q]; simpl.
  - rewrite strictly_below_nil. by split.
  - rewrite strictly_below_nil. by split.
  - split; [done | by intros ?%not_strictly_below_cons_nil].
  - rewrite strictly_below_cons, andb_true_iff, Nat.eqb_eq, IH. done.
Qed.

Lemma strictly_below_b_false y q :
  strictly_below_b y q = false → ¬ strictly_below y q.
Proof. intros Hb H%strictly_below_b_spec. congruence. Qed.

Lemma strictly_below_cases y q : strictly_below y q ∨ ¬ strictly_below y q.
Proof.
  destruct (strictly_below_b y q) eqn:Hb.
  - left. by apply strictly_below_b_spec.
  - right. by apply strictly_below_b_false.
Qed.

Lemma strictly_below_prefix y r0 r1 :
  strictly_below y r0 → strictly_below y (r0 ++ r1).
Proof.
  intros (r & Hr & ->). exists (r ++ r1). split.
  - by destruct r.
  - by rewrite app_assoc.
Qed.

(** Replacing the children of an element does not change which of the
    positions outside it the selector matches. *)
Lemma selected_replace_all_outside cls tag s y n q e :
  elem_at n y = Some e → ¬ strictly_below y q →
  selected cls tag (alter_at (replace_all s) y n) q ↔ selected cls tag n q.
Proof.
  intros Hy Hq. unfold selected, below_class.
  rewrite (elem_at_replace_all_outside s y n q e) by done.
  split; intros (e' & He' & Htag & r0 & r1 & e0 & -> & Hr1 & He0 & Hcls);
    exists e'; split_and!; try done; exists r0, r1, e0; split_and!; try done.
  - rewrite (elem_at_replace_all_outside s y n r0 e) in He0; [done..|].
    intros Hb. by apply Hq, strictly_below_prefix.
  - rewrite (elem_at_replace_all_outside s y n r0 e); [done..|].
    intros Hb. by apply Hq, strictly_below_prefix.
Qed.

End Helpers.

(** ** The two routines together *)

Section Composition.

Implicit Types (n doc : node) (r q y : ref) (e : element) (pathname here : string).

Lemma setYear_run clock doc : setYear clock doc = Ok () (stamp clock doc).
Proof.
  unfold stamp. destruct (find_id "y" doc) as [y|] eqn:Hy.
  - by apply setYear_found.
  - by apply setYear_not_found.
Qed.

Lemma node_at_text_children e s r k :
  r ≠ [] → node_at (Elem e (text_children s)) r = Some k → k = Text s.
Proof.
  intros Hr. destruct r as [|i r]; [done|]. simpl.
  unfold text_children. destruct (String.eqb s ""); [done|].
  destruct i as [|i]; [|done]. simpl. destruct r; [by intros [= <-] | done].
Qed.

Lemma label_at_text_children e e' s r :
  r ≠ [] →
  label <$> node_at (Elem e (text_children s)) r
  = label <$> node_at (Elem e' (text_children s)) r.
Proof. intros Hr. by destruct r. Qed.

Lemma map_label_text_children f e s r :
  r ≠ [] →
  map_label f <$> (label <$> node_at (Elem e (text_children s)) r)
  = label <$> node_at (Elem e (text_children s)) r.
Proof.
  intros Hr. destruct (node_at _ r) as [k|] eqn:Hk; [|done].
  apply node_at_text_children in Hk as ->; done.
Qed.

Lemma elem_at_mark_all_is_Some here l doc q e :
  elem_at doc q = Some e → ∃ e', elem_at (mark_all here l doc) q = Some e'.
Proof.
  intros He. rewrite elem_at_mark_all, He. case_decide; eauto.
Qed.

(** Flagging after writing the year is the same as writing the year
    after flagging. *)
Lemma stamp_mark_commute clock here doc :
  mark_all here (nav_anchors (stamp clock doc)) (stamp clock doc)
  = stamp clock (mark_all here (nav_anchors doc) doc).
Proof.
  unfold stamp. rewrite find_id_mark_all.
  destruct (find_id "y" doc) as [y|] eqn:Hy; [|done].
  set (s := Date.ToString (Date.getFullYear clock)).
  destruct (find_id_Some _ _ _ Hy) as (e & He & _).
  destruct (elem_at_mark_all_is_Some here (nav_anchors doc) doc y e He) as [eM HeM].
  apply node_ext. intros q. rewrite label_at_mark_all.
  destruct (strictly_below_cases y q) as [(r & Hr & ->)|Hq].
  - unfold label_at.
    rewrite (node_at_replaced s y doc e r He), (node_at_replaced s y _ eM r HeM).
    rewrite (label_at_text_children eM e s r Hr).
    case_decide; [by apply map_label_text_children | done].
  - rewrite (label_at_replace_all_outside s y doc q e He Hq).
    rewrite (label_at_replace_all_outside s y _ q eM HeM Hq).
    rewrite label_at_mark_all.
    assert (q ∈ nav_anchors (alter_at (replace_all s) y doc) ↔ q ∈ nav_anchors doc)
      as Hiff.
    { rewrite !nav_anchors_spec. by apply (selected_replace_all_outside _ _ s y doc q e). }
    repeat case_decide; tauto.
Qed.

Lemma main_run clock pathname doc :
  main clock pathname doc
  = Ok () (stamp clock (mark_all (normalize pathname) (nav_anchors doc) doc)).
Proof.
  unfold main, bind. rewrite setYear_run, markActiveNav_run.
  f_equal. apply stamp_mark_commute.
Qed.

Lemma attr_mark name here e : attr name (mark here e) = attr name e.
Proof. unfold attr. by rewrite attributes_mark. Qed.

Lemma marks_mark_other here here' e : marks here (mark here' e) = marks here e.
Proof. unfold marks. by rewrite attr_mark. Qed.

Lemma target_matches_mark_all pathname here doc q :
  target_matches pathname (mark_all here (nav_anchors doc) doc) q
  ↔ target_matches pathname doc q.
Proof.
  unfold target_matches, nav_anchors. rewrite matches_mark_all by done.
  fold (nav_anchors doc). split; intros [Hq (e & h & He & Hh)]; (split; [done|]).
  - rewrite elem_at_mark_all, decide_True in He by done.
    destruct (elem_at doc q) as [e0|]; simplify_eq/=.
    exists e0, h. by rewrite attr_mark in Hh.
  - exists (mark here e), h. rewrite elem_at_mark_all, decide_True, He by done.
    by rewrite attr_mark.
Qed.

Lemma flagged_mark_all pathname doc q :
  flagged (mark_all (normalize pathname) (nav_anchors doc) doc) q
  ↔ flagged doc q ∨ target_matches pathname doc q.
Proof.
  unfold flagged. rewrite elem_at_mark_all.
  destruct (elem_at doc q) as [e|] eqn:He.
  - rewrite (target_matches_marks pathname doc q e He). case_decide as Hq; simpl.
    + split.
      * intros (e' & [= <-] & [Hin|[_ Hm]]%classList_mark_iff); eauto.
      * intros [(e' & [= <-] & Hin)|[_ Hm]];
          (eexists; split; [done|]; apply classList_mark_iff); eauto.
    + split; [eauto | by intros [?|[? _]]].
  - case_decide; simpl; (split; [by intros (? & ? & _) |]).
    + intros [(? & ? & _)|[_ (? & ? & ? & _)]]; congruence.
    + intros [(? & ? & _)|[_ (? & ? & ? & _)]]; congruence.
Qed.

(** The search returns the first element with the id in document order. *)
Lemma find_in_Some_first x i ks r :
  find_in x i ks = Some r →
  ∃ j k r', r = (i + j) :: r' ∧ ks !! j = Some k ∧ find_id x k = Some r' ∧
    ∀ j' k', j' < j → ks !! j' = Some k' → find_id x k' = None.
Proof.
  revert i. induction ks as [|k ks IH]; intros i; simpl; [done|].
  destruct (find_id x k) as [r'|] eqn:Hk.
  - intros [= <-]. exists 0, k, r'. rewrite Nat.add_0_r.
    split_and!; [done..|]. intros j' k' Hj'. lia.
  - intros (j & k' & r' & -> & Hj & Hr' & Hfirst)%IH.
    exists (S j), k', r'. split_and!; [f_equal; lia | done | done |].
    intros [|j'] k'' Hlt Hk''; simpl in Hk''; [congruence|].
    apply (Hfirst j' k''); [lia | done].
Qed.

Lemma find_id_first x n y q e :
  find_id x n = Some y → elem_at n q = Some e → attr "id" e = Some x →
  q = y ∨ doc_before y q = true.
Proof.
  revert y q. induction n as [s|e0 kids IH] using node_ind'; intros y q; [done|].
  rewrite find_id_Elem. case_bool_decide as Hid.
  - intros [= <-] _ _. destruct q; [by left | by right].
  - intros (i & k & y' & -> & Hi & Hy' & Hfirst)%find_in_Some_first He Hx.
    change (0 + i) with i. destruct q as [|j q].
    + rewrite elem_at_nil in He. congruence.
    + rewrite elem_at_cons in He.
      destruct (kids !! j) as [kj|] eqn:Hj; [|done]. simpl in He.
      destruct (Nat.lt_trichotomy j i) as [Hlt|[->|Hgt]].
      * pose proof (find_id_is_Some x kj q e He Hx) as [? Hsome].
        rewrite (Hfirst j kj Hlt Hj) in Hsome. done.
      * rewrite Forall_lookup in IH. assert (kj = k) as -> by congruence.
        destruct (IH i k Hi y' q Hy' He Hx) as [->|Hb]; [by left|].
        right. simpl. rewrite Nat.eqb_refl, Hb. apply orb_true_r.
      * right. simpl. apply orb_true_intro. left. by apply Nat.ltb_lt.
Qed.

(** Nodes after the updated one in document order, and not inside it,
    are as they were, with all they contain. *)
Lemma node_at_alter_at_after (g : node → node) y n q :
  doc_before y q = true → ¬ strictly_below y q →
  node_at (alter_at g y n) q = node_at n q.
Proof.
  revert n q. induction y as [|i y IH]; intros n q Hb Hq.
  - destruct q as [|j q]; [done|]. destruct Hq. by apply strictly_below_nil.
  - destruct q as [|j q]; [done|]. destruct n as [s|e kids]; [done|]. simpl.
    destruct (decide (i = j)) as [->|Hij].
    + rewrite list_lookup_alter_eq. destruct (kids !! j) as [k|]; [|done]. simpl.
      simpl in Hb. rewrite Nat.ltb_irrefl, Nat.eqb_refl in Hb. simpl in Hb.
      apply IH; [done|]. intros ?. apply Hq. by apply strictly_below_cons.
    + by rewrite list_lookup_alter_ne.
Qed.

End Composition.

(** ** Properties *)

Section NormalForms.

#[local] Arguments String.append !_ _ / : simpl nomatch.

Lemma append_snoc_inj_l (q q' : string) (c c' : ascii) :
  q +:+ String c "" = q' +:+ String c' "" → q = q'.
Proof.
  revert q'. induction q as [|a q IH]; intros [|a' q']; simpl; intros H.
  - done.
  - injection H as _ H. by destruct q'.
  - injection H as _ H. by destruct q.
  - injection H as -> H. f_equal. eauto.
Qed.

Lemma normalize_dir (q : string) : normalize (q +:+ "/") = q +:+ "/".
Proof. apply normalize_other. intros q'. apply slash_not_index_html. Qed.

(** X1. The default document of a directory: one trailing [/index.html] is
    replaced by [/], whatever precedes it. *)
Theorem normalize_strips_one_segment (q : string) :
  normalize (q +:+ "/index.html") = q +:+ "/".
Proof. apply normalize_suffix. Qed.

(** X2. Which paths the comparison identifies: two strings have the same
    normal form exactly when they are equal or one is the other's
    directory followed by [index.html]. *)
Theorem normalize_eq_iff (p p' : string) :
  normalize p = normalize p' ↔
  p = p'
  ∨ (∃ q, p = q +:+ "/index.html" ∧ p' = q +:+ "/")
  ∨ (∃ q, p' = q +:+ "/index.html" ∧ p = q +:+ "/").
Proof.
  split.
  - destruct (normalize_cases p) as [(q & -> & ->)|[_ ->]],
             (normalize_cases p') as [(q' & -> & ->)|[_ ->]]; intros H.
    + left. by apply append_snoc_inj_l in H as ->.
    + right. left. by exists q.
    + right. right. by exists q'.
    + by left.
  - intros [->|[(q & -> & ->)|(q & -> & ->)]]; [done| |];
      by rewrite normalize_suffix, normalize_dir.
Qed.

End NormalForms.

Section MoreOnMarkActiveNav.

Implicit Types (doc : node) (q : ref) (e : element) (pathname : string).

(** X3. The flags after a run: an element carries the active flag exactly
    when it carried it before or it is a navigation anchor with a
    non-empty target whose normal form is that of the current path. *)
Theorem markActiveNav_flagged_iff pathname doc :
  ∃ doc', markActiveNav pathname doc = Ok () doc' ∧
    ∀ q, flagged doc' q ↔ flagged doc q ∨ target_matches pathname doc q.
Proof.
  eexists. split; [apply markActiveNav_run|]. intros q. apply flagged_mark_all.
Qed.

(** X4. What is not an [a] element below an element of class [nav] is not
    touched: a link outside the navigation keeps its classes even when
    its target is the current page. *)
Theorem markActiveNav_outside_navigation pathname doc q :
  ¬ selected "nav" "a" doc q →
  ∃ doc', markActiveNav pathname doc = Ok () doc' ∧
          elem_at doc' q = elem_at doc q.
Proof.
  intros Hq. eexists. split; [apply markActiveNav_run|].
  rewrite elem_at_mark_all, decide_False; [done|]. by rewrite nav_anchors_spec.
Qed.

Lemma markActiveNav_outside_navigation_witness :
  ∃ doc', markActiveNav "/blog/" Sample.page = Ok () doc' ∧
          elem_at doc' [1] = elem_at Sample.page [1].
Proof.
  apply (markActiveNav_outside_navigation "/blog/" Sample.page [1]).
  intros H%nav_anchors_spec. revert H. by_evaluation.
Defined.

(** X5. The only change a run makes to an element is to append the token
    [active] to a class list that does not have it: the name, the
    attributes and the classes already there, in their order, stay. *)
Theorem markActiveNav_only_appends_active pathname doc q e :
  elem_at doc q = Some e →
  ∃ doc' e', markActiveNav pathname doc = Ok () doc' ∧
    elem_at doc' q = Some e' ∧
    localName e' = localName e ∧ attributes e' = attributes e ∧
    (classList e' = classList e
     ∨ (("active" ∉ classList e) ∧ classList e' = (classList e ++ ["active"]))).
Proof.
  intros He.
  destruct (elem_at_markActiveNav pathname doc) as (doc' & Hrun & Hat).
  specialize (Hat q). rewrite He in Hat. exists doc'.
  case_decide; simpl in Hat.
  - exists (mark (normalize pathname) e). split_and!; [done..| | |].
    + apply localName_mark.
    + apply attributes_mark.
    + unfold mark, add_token, has_class. destruct (marks _ e); [|by left].
      simpl. case_bool_decide; [by left | by right].
  - exists e. split_and!; [done..|]. by left.
Qed.

Lemma markActiveNav_only_appends_active_witness :
  ∃ doc' e', markActiveNav "/blog/" Sample.page = Ok () doc' ∧
    elem_at doc' [0; 1] = Some e' ∧
    localName e' = "a" ∧ attributes e' = [("href", "/blog/")] ∧
    (classList e' = ["btn"]
     ∨ (("active" ∉ ["btn"]) ∧ classList e' = ["btn"; "active"])).
Proof.
  apply (markActiveNav_only_appends_active "/blog/" Sample.page [0; 1]
           (Element "a" [("href", "/blog/")] ["btn"])).
  reflexivity.
Defined.

(** X6. A run changes no text: every node of the document has afterwards
    the text content it had before. *)
Theorem markActiveNav_keeps_text pathname doc :
  ∃ doc', markActiveNav pathname doc = Ok () doc' ∧
    ∀ q, textContent <$> node_at doc' q = textContent <$> node_at doc q.
Proof.
  eexists. split; [apply markActiveNav_run|]. intros q.
  apply textContent_node_at_mark_all.
Qed.

(** X7. Flags pile up over runs at different paths: after a run at [p1]
    and a run at [p2] an element is flagged exactly when it was flagged
    at the start or its target matches [p1] or matches [p2]; the match
    of the earlier path stays flagged. *)
Theorem markActiveNav_accumulates (p1 p2 : string) doc :
  ∃ doc1 doc2,
    markActiveNav p1 doc = Ok () doc1 ∧ markActiveNav p2 doc1 = Ok () doc2 ∧
    ∀ q, flagged doc2 q
         ↔ flagged doc q ∨ target_matches p1 doc q ∨ target_matches p2 doc q.
Proof.
  eexists _, _. split; [apply markActiveNav_run|].
  split; [apply markActiveNav_run|]. intros q.
  rewrite flagged_mark_all, flagged_mark_all, target_matches_mark_all. tauto.
Qed.

(** X8. When a run changes nothing: [markActiveNav] returns the document
    it was given exactly when every navigation anchor whose target
    matches the path is flagged already; in particular on a page none
    of whose navigation links points to it. *)
Theorem markActiveNav_noop_iff pathname doc :
  markActiveNav pathname doc = Ok () doc
  ↔ ∀ q, target_matches pathname doc q → flagged doc q.
Proof.
  rewrite markActiveNav_run. split.
  - intros [= Hdoc] q Hq.
    rewrite <- Hdoc at 1. apply flagged_mark_all. by right.
  - intros Hall. f_equal. apply node_ext. intros q. rewrite label_at_mark_all.
    case_decide as Hq; [|done].
    destruct (label_at doc q) as [[e|s]|] eqn:Hl; [|done..]. simpl. do 2 f_equal.
    assert (elem_at doc q = Some e) as He by by rewrite elem_at_label_at, Hl.
    destruct (marks (normalize pathname) e) eqn:Hm; [|by apply mark_false].
    destruct (Hall q) as (e' & He' & Hin).
    { by apply (target_matches_marks pathname doc q e He). }
    unfold mark. rewrite Hm. apply add_token_present. congruence.
Qed.

End MoreOnMarkActiveNav.

Section MoreOnSetYear.

Implicit Types (doc : node) (q y : ref) (e : element) (clock : Date.clock).

(** X9. [setYear] overwrites: the element found keeps its name, attributes
    and classes, and whatever it contained, nested elements included,
    is replaced by the one text node with the year. *)
Theorem setYear_replaces_content clock doc y :
  find_id "y" doc = Some y →
  ∃ doc' e, setYear clock doc = Ok () doc' ∧
    elem_at doc y = Some e ∧
    node_at doc' y
      = Some (Elem e [Text (Date.ToString (Date.getFullYear clock))]) ∧
    ∀ q, strictly_below y q → elem_at doc' q = None.
Proof.
  intros Hy. destruct (find_id_Some _ _ _ Hy) as (e & He & _).
  eexists _, e. split; [by apply setYear_found|]. split; [done|].
  set (s := Date.ToString (Date.getFullYear clock)). split.
  - rewrite <- (app_nil_r y) at 2.
    rewrite (node_at_replaced s y doc e [] He). simpl. subst s.
    by rewrite text_children_ToString.
  - intros q (r & Hr & ->).
    rewrite (elem_at_replaced s y doc e r He).
    destruct (elem_at (Elem e (text_children s)) r) as [e'|] eqn:E; [|done].
    by destruct (elem_at_text_children s e r e' Hr).
Qed.

Lemma setYear_replaces_content_witness :
  ∃ doc' e, setYear Sample.noon_2026 Sample.page_nested_year = Ok () doc' ∧
    elem_at Sample.page_nested_year [0] = Some e ∧
    node_at doc' [0]
      = Some (Elem e [Text (Date.ToString (Date.getFullYear Sample.noon_2026))]) ∧
    ∀ q, strictly_below [0] q → elem_at doc' q = None.
Proof.
  apply (setYear_replaces_content Sample.noon_2026 Sample.page_nested_year [0]).
  reflexivity.
Defined.

(** X10. [setYear] touches nothing outside the element it writes to: every
    element that is not inside it is as it was. *)
Theorem setYear_frame clock doc q :
  outside_year doc q →
  ∃ doc', setYear clock doc = Ok () doc' ∧ elem_at doc' q = elem_at doc q.
Proof.
  intros Hq. eexists. split; [apply setYear_run|]. unfold stamp.
  destruct (find_id "y" doc) as [y|] eqn:Hy; [|done].
  destruct (find_id_Some _ _ _ Hy) as (e & He & _).
  apply (elem_at_replace_all_outside _ y doc q e He). by apply Hq.
Qed.

Lemma setYear_frame_witness :
  ∃ doc', setYear Sample.noon_2026 Sample.page = Ok () doc' ∧
          elem_at doc' [0; 5] = elem_at Sample.page [0; 5].
Proof.
  apply (setYear_frame Sample.noon_2026 Sample.page [0; 5]).
  intros y Hy. injection Hy as <-. apply strictly_below_b_false. reflexivity.
Defined.

(** X11. The last write wins: a second [setYear] after a first gives the
    document the second alone would give; with the same clock a second
    call changes nothing. *)
Theorem setYear_last_write_wins (c1 c2 : Date.clock) doc :
  ∃ doc1, setYear c1 doc = Ok () doc1 ∧ setYear c2 doc1 = setYear c2 doc.
Proof.
  eexists. split; [apply setYear_run|]. rewrite !setYear_run. f_equal.
  unfold stamp. destruct (find_id "y" doc) as [y|] eqn:Hy.
  - rewrite (find_id_replace_all _ _ _ _ Hy), alter_at_twice.
    apply alter_at_ext. intros k. apply replace_all_twice.
  - by rewrite Hy.
Qed.

(** X12. Several elements with the id [y]: the one [setYear] writes to is
    the first in document order; every other one comes after it, and
    unless it lies inside the first it keeps all its content. *)
Theorem setYear_writes_first_match clock doc y q e :
  find_id "y" doc = Some y →
  elem_at doc q = Some e → attr "id" e = Some "y" → q ≠ y →
  doc_before y q = true ∧
  ∃ doc', setYear clock doc = Ok () doc' ∧
    (¬ strictly_below y q → node_at doc' q = node_at doc q).
Proof.
  intros Hy He Hid Hne.
  destruct (find_id_first "y" doc y q e Hy He Hid) as [?|Hb]; [done|].
  split; [done|]. eexists. split; [by apply setYear_found|].
  intros Hq. by apply node_at_alter_at_after.
Qed.

Lemma setYear_writes_first_match_witness :
  doc_before [0] [1] = true ∧
  ∃ doc', setYear Sample.noon_2026 Sample.page_two_years = Ok () doc' ∧
    (¬ strictly_below [0] [1] →
     node_at doc' [1] = node_at Sample.page_two_years [1]).
Proof.
  apply (setYear_writes_first_match Sample.noon_2026 Sample.page_two_years
           [0] [1] (Element "span" [("id", "y")] [])).
  - reflexivity.
  - reflexivity.
  - reflexivity.
  - discriminate.
Defined.

End MoreOnSetYear.

Section WholeScript.

Implicit Types (doc : node) (q y : ref) (clock : Date.clock) (pathname : string).

(** X13. The two calls of the script can be swapped: [markActiveNav] after
    [setYear] leaves the document that [setYear] after [markActiveNav]
    leaves. *)
Theorem main_order_irrelevant clock pathname doc :
  main clock pathname doc
  = (let* _ := markActiveNav pathname in setYear clock) doc.
Proof.
  rewrite main_run. unfold bind. by rewrite markActiveNav_run, setYear_run.
Qed.

(** X14. After the whole script the element found by [getElementById('y')]
    shows the year: the highlighter that runs after the year stamper
    does not disturb it. *)
Theorem main_year_survives clock pathname doc y :
  find_id "y" doc = Some y →
  ∃ doc', main clock pathname doc = Ok () doc' ∧
    textContent <$> node_at doc' y
      = Some (Date.ToString (Date.getFullYear clock)).
Proof.
  intros Hy. unfold main, bind. rewrite (setYear_found _ _ _ Hy).
  eexists. split; [apply markActiveNav_run|].
  rewrite textContent_node_at_mark_all, node_at_alter_at.
  apply find_id_Some in Hy as (e & [k Hk]%elem_at_node_at & _).
  rewrite Hk. simpl. by rewrite textContent_replace_all.
Qed.

Lemma main_year_survives_witness :
  ∃ doc', main Sample.noon_2026 "/about/" Sample.page = Ok () doc' ∧
    textContent <$> node_at doc' [2; 1]
      = Some (Date.ToString (Date.getFullYear Sample.noon_2026)).
Proof.
  apply (main_year_survives Sample.noon_2026 "/about/" Sample.page [2; 1]).
  reflexivity.
Defined.

(** X15. The flags after the whole script, in terms of the page as loaded:
    the script completes, and an element is flagged exactly when it is
    not inside the year element and it was flagged before or is a
    navigation anchor whose target matches the path. Links inside the
    year element are lost with its content. *)
Theorem main_flagged_iff clock pathname doc :
  ∃ doc', main clock pathname doc = Ok () doc' ∧
    ∀ q, flagged doc' q
         ↔ outside_year doc q
           ∧ (flagged doc q ∨ target_matches pathname doc q).
Proof.
  eexists. split; [apply main_run|]. intros q.
  rewrite <- flagged_mark_all.
  set (M := mark_all (normalize pathname) (nav_anchors doc) doc).
  unfold outside_year, stamp. rewrite <- (find_id_mark_all "y" (normalize pathname) (nav_anchors doc) doc).
  fold M. destruct (find_id "y" M) as [y|] eqn:Hy.
  - destruct (find_id_Some _ _ _ Hy) as (e & He & _).
    destruct (strictly_below_cases y q) as [Hb|Hb].
    + split.
      * intros (e' & He' & _). pose proof Hb as (r & Hr & ->).
        rewrite (elem_at_replaced _ y M e r He) in He'.
        destruct (elem_at_text_children _ e r e' Hr He').
      * intros [Hout _]. by destruct (Hout y eq_refl).
    + unfold flagged. rewrite (elem_at_replace_all_outside _ y M q e He Hb).
      split; [|by intros [_ ?]]. intros H. split; [|done]. by intros ? [= <-].
  - split; [|by intros [_ ?]]. intros H. by split.
Qed.

End WholeScript.
